(** * Imgr: the mask-refinement engine (backend/api/mask_refinement_service.py)

    A shallow embedding of the feathering pipeline:
    [smooth_open_close] (morphological cleanup), [_feather] (distance
    transform plus opacity profile) and [apply_feathering] (the dispatcher),
    of the encoding helpers and request handlers of routes.py, and of the
    mask generation service.

    Images are row-major grids ([list (list A)]).  The 8-bit images handed to
    OpenCV hold integers in 0..255 ([Z]).  Distances, normalised distances
    and opacities are real numbers ([R]): the float arithmetic of numpy is
    idealised, squared pixel distances stay exact integers ([Z]).

    The three library calls the module relies on are modelled by their
    documented behaviour:
    - [cv2.getStructuringElement(MORPH_ELLIPSE, (k, k))]: per row, the span
      [c - dx .. c + dx] with [dx] the rounded half-chord of the ellipse;
      [cv2.error] for a size that is not positive;
    - [cv2.morphologyEx] with [MORPH_OPEN] / [MORPH_CLOSE], default anchor
      (the centre) and default border (pixels outside the image never win
      the min of an erosion or the max of a dilation); [cv2.error] for an
      image without pixels;
    - [scipy.ndimage.distance_transform_edt] with unit sampling. *)

From Stdlib Require Import String List ZArith Bool Lia Reals Lra.
From Stdlib Require QArith.
Import ListNotations.

Set Implicit Arguments.

(** ** Grids *)

Definition grid (A : Type) := list (list A).

Fixpoint imap_from {A B} (f : nat -> A -> B) (n : nat) (l : list A) : list B :=
  match l with
  | [] => []
  | x :: l' => f n x :: imap_from f (S n) l'
  end.

Definition imap {A B} (f : nat -> A -> B) (l : list A) : list B :=
  imap_from f 0 l.

Fixpoint zip_with {A B C} (f : A -> B -> C) (l1 : list A) (l2 : list B)
  : list C :=
  match l1, l2 with
  | x :: l1', y :: l2' => f x y :: zip_with f l1' l2'
  | _, _ => []
  end.

(** Elementwise operation that also sees the (row, column) index. *)
Definition gimap {A B} (f : nat -> nat -> A -> B) (g : grid A) : grid B :=
  imap (fun i row => imap (fun j x => f i j x) row) g.

(** Elementwise operation (numpy broadcasting of a scalar function). *)
Definition gmap {A B} (f : A -> B) (g : grid A) : grid B := map (map f) g.

Definition gzip_with {A B C} (f : A -> B -> C) (g1 : grid A) (g2 : grid B)
  : grid C :=
  zip_with (zip_with f) g1 g2.

(** [a[i][j]], or [None] outside the array. *)
Definition pixel {A} (g : grid A) (i j : nat) : option A :=
  match nth_error g i with
  | Some row => nth_error row j
  | None => None
  end.

(** [a.shape], kept row by row so that it is defined for any nested list. *)
Definition shape {A} (g : grid A) : list nat := map (@length A) g.

(** [np.full_like(a, v)]. *)
Definition full_like {A B} (v : B) (g : grid A) : grid B := gmap (fun _ => v) g.

(** [M.any()], [M.all()], [~M], [A & B] on boolean arrays. *)
Definition any (M : grid bool) : bool := existsb (existsb (fun b => b)) M.
Definition all (M : grid bool) : bool := forallb (forallb (fun b => b)) M.
Definition gnot (M : grid bool) : grid bool := gmap negb M.
Definition gand (M N : grid bool) : grid bool := gzip_with andb M N.

(** Pixel lookup at a signed position: [None] outside the image. *)
Definition pixelZ {A} (g : grid A) (i j : Z) : option A :=
  if ((i <? 0) || (j <? 0))%Z then None
  else pixel g (Z.to_nat i) (Z.to_nat j).

(** ** OpenCV calls *)

(** The outcome of an OpenCV call: the array it returns, or [cv2.error]. *)
Inductive cv2 (A : Type) :=
| Returns (a : A)
| Raises.

Arguments Returns {A} a.
Arguments Raises {A}.

Definition cv2_bind {A B} (c : cv2 A) (k : A -> cv2 B) : cv2 B :=
  match c with
  | Returns a => k a
  | Raises => Raises
  end.

Notation "x <- c ;; k" := (cv2_bind c (fun x => k))
  (at level 61, c at next level, right associativity).

(** The array has at least one element ([not src.empty()]). *)
Definition has_pixel {A} (g : grid A) : bool :=
  existsb (fun row => negb (Nat.eqb (length row) 0)) g.

(** ** Smoothing *)

Open Scope Z_scope.

(** [_to_u8]: bool/0-1 -> uint8 {0,255}. *)
Definition _to_u8 (mask : grid bool) : grid Z :=
  gmap (fun b : bool => (if b then 1 else 0) * 255) mask.

(** [_to_bool]: uint8 {0..255} -> bool. *)
Definition _to_bool (m_u8 : grid Z) : grid bool :=
  gmap (fun v => 0 <? v) m_u8.

(** A structuring element, as OpenCV stores it: a [k] x [k] array of 0/1. *)
Definition kernel := grid Z.

(** Half-width of the ellipse row at vertical offset [dy] from the centre:
    OpenCV computes [cvRound(c * sqrt((r*r - dy*dy) / (r*r)))] with [c = r],
    the integer nearest to [sqrt(r*r - dy*dy)]. *)
Definition ellipse_half_width (r dy : Z) : Z :=
  (Z.sqrt (4 * (r * r - dy * dy)) + 1) / 2.

(** The array [cv2.getStructuringElement(cv2.MORPH_ELLIPSE, (k, k))] builds
    for a positive size [k]: row [i] holds ones in columns
    [c - dx .. c + dx], zeros elsewhere. *)
Definition ellipse_kernel (k : Z) : kernel :=
  let r := k / 2 in
  let c := k / 2 in
  map (fun i =>
         let dy := Z.of_nat i - r in
         let dx := ellipse_half_width r dy in
         let j1 := Z.max (c - dx) 0 in
         let j2 := Z.min (c + dx + 1) k in
         map (fun j =>
                if (j1 <=? Z.of_nat j) && (Z.of_nat j <? j2) then 1 else 0)
             (seq 0 (Z.to_nat k)))
      (seq 0 (Z.to_nat k)).

(** [cv2.getStructuringElement(cv2.MORPH_ELLIPSE, (k, k))]: the default
    anchor [(k/2, k/2)] must lie inside the [k] x [k] rectangle, so OpenCV
    rejects a size that is not positive. *)
Definition getStructuringElement_ellipse (k : Z) : cv2 kernel :=
  if k <=? 0 then Raises else Returns (ellipse_kernel k).

(** [_disk_kernel]: approximate Euclidean disk, ellipse kernel of size 2r+1. *)
Definition _disk_kernel (r : Z) : cv2 kernel :=
  let k := 2 * r + 1 in
  getStructuringElement_ellipse k.

(** The kernel [_disk_kernel] returns for a radius it accepts. *)
Definition disk_kernel (r : Z) : kernel := ellipse_kernel (2 * r + 1).

(** Offsets (row, column), relative to the centre anchor, of the non-zero
    entries of a structuring element. *)
Definition kernel_offsets (se : kernel) : list (Z * Z) :=
  let ay := Z.of_nat (length se) / 2 in
  concat
    (imap (fun i row =>
             let ax := Z.of_nat (length row) / 2 in
             concat (imap (fun j v =>
                             if v =? 0 then []
                             else [(Z.of_nat i - ay, Z.of_nat j - ax)]) row))
          se).

(** The image values under the structuring element centred at (i, j);
    positions outside the image are skipped. *)
Definition neighbourhood (img : grid Z) (offs : list (Z * Z)) (i j : nat)
  : list Z :=
  concat
    (map (fun d : Z * Z =>
            match pixelZ img (Z.of_nat i + fst d) (Z.of_nat j + snd d) with
            | Some v => [v]
            | None => []
            end) offs).

(** [cv2.erode] with a structuring element that has a non-zero entry, as
    the one of [_disk_kernel] has: minimum over the neighbourhood (border
    counts as 255). *)
Definition erode (img : grid Z) (se : kernel) : grid Z :=
  let offs := kernel_offsets se in
  gimap (fun i j _ => fold_right Z.min 255 (neighbourhood img offs i j)) img.

(** [cv2.dilate], under the same condition: maximum over the neighbourhood
    (border counts as 0). *)
Definition dilate (img : grid Z) (se : kernel) : grid Z :=
  let offs := kernel_offsets se in
  gimap (fun i j _ => fold_right Z.max 0 (neighbourhood img offs i j)) img.

Inductive MorphTypes := MORPH_OPEN | MORPH_CLOSE.

(** The image [cv2.morphologyEx] computes: an opening is an erosion followed
    by a dilation, a closing a dilation followed by an erosion. *)
Definition morphology (src : grid Z) (op : MorphTypes) (se : kernel)
  : grid Z :=
  match op with
  | MORPH_OPEN => dilate (erode src se) se
  | MORPH_CLOSE => erode (dilate src se) se
  end.

(** [cv2.morphologyEx(src, op, kernel, iterations=1)]: OpenCV rejects an
    image without pixels. *)
Definition morphologyEx (src : grid Z) (op : MorphTypes) (se : kernel)
  : cv2 (grid Z) :=
  if has_pixel src then Returns (morphology src op se) else Raises.

(** [smooth_open_close(mask, r)]: opening removes outward spikes, closing
    fills inward notches.  An exception of OpenCV ends the call. *)
Definition smooth_open_close (mask : grid bool) (r : Z) : cv2 (grid bool) :=
  let m := _to_u8 mask in
  se <- _disk_kernel r ;;
  opened <- morphologyEx m MORPH_OPEN se ;;
  closed <- morphologyEx opened MORPH_CLOSE se ;;
  Returns (_to_bool closed).

(** The keyword default of [r] ([r: int = 2]), and the call
    [smooth_open_close(mask)] that leaves [r] out. *)
Definition smooth_open_close_default_r : Z := 2.

Definition smooth_open_close_default (mask : grid bool) : cv2 (grid bool) :=
  smooth_open_close mask smooth_open_close_default_r.

(** The mask [smooth_open_close] returns when no OpenCV call raises. *)
Definition open_close (mask : grid bool) (r : Z) : grid bool :=
  let m := _to_u8 mask in
  let se := disk_kernel r in
  let opened := morphology m MORPH_OPEN se in
  let closed := morphology opened MORPH_CLOSE se in
  _to_bool closed.

(** ** Distance transform *)

(** (row, column) positions of the zero-valued (background) elements. *)
Definition zero_coords (input : grid bool) : list (nat * nat) :=
  concat
    (imap (fun i row =>
             concat (imap (fun j (b : bool) => if b then [] else [(i, j)]) row))
          input).

(** Squared Euclidean distance between two pixel positions. *)
Definition sq_dist (p q : nat * nat) : Z :=
  (Z.of_nat (fst p) - Z.of_nat (fst q)) ^ 2
  + (Z.of_nat (snd p) - Z.of_nat (snd q)) ^ 2.

(** Least squared distance from [p] to one of [zs] (0 when there is none,
    a case [_feather] never reaches). *)
Definition nearest_sq (zs : list (nat * nat)) (p : nat * nat) : Z :=
  match zs with
  | [] => 0
  | q :: qs => fold_right Z.min (sq_dist p q) (map (sq_dist p) qs)
  end.

(** Squared distance of every foreground element to the background. *)
Definition edt_sq (input : grid bool) : grid Z :=
  let zs := zero_coords input in
  gimap (fun i j (b : bool) => if b then nearest_sq zs (i, j) else 0) input.

Open Scope R_scope.

(** [scipy.ndimage.distance_transform_edt(input)]: each non-zero element is
    replaced by its Euclidean distance to the nearest zero element; zero
    elements get 0. *)
Definition distance_transform_edt (input : grid bool) : grid R :=
  gmap (fun d2 => sqrt (IZR d2)) (edt_sq input).

(** ** Feathering *)

(** [np.clip(x, lo, hi)]. *)
Definition clip (x lo hi : R) : R := Rmin (Rmax x lo) hi.

(** The comparison [x < y] as a boolean. *)
Definition Rltb (x y : R) : bool := if Rlt_dec x y then true else false.

(** [alpha[cond] = vals[cond]]: boolean-mask assignment. *)
Definition assign_where (cond : grid bool) (vals alpha : grid R) : grid R :=
  gzip_with (fun (c : bool) (va : R * R) => if c then fst va else snd va)
            cond (gzip_with pair vals alpha).

(** [_feather]: generic feathering helper.
    [mask]: binary array; [g]: profile function; [w]: feather width. *)
Definition _feather (mask : grid bool) (g : R -> R) (w : R) : grid R :=
  let M := mask in
  (* Trivial edge cases *)
  if negb (any M) then full_like 0 mask
  else if all M then full_like 1 mask
  else
    (* Outside-only Euclidean distance transform *)
    let D_out := distance_transform_edt (gnot M) in
    (* Normalized distance across the ramp band *)
    let t := gmap (fun d => clip (d / w) 0 1) D_out in
    (* Apply profile only outside and only within the w-band *)
    let band := gmap (fun d => Rltb d w) D_out in
    let ramp_vals := gmap g t in
    let alpha := full_like 0 t in
    let alpha := assign_where M (full_like 1 t) alpha in
    let alpha := assign_where (gand (gnot M) band) ramp_vals alpha in
    alpha.

(** The profile functions (the lambdas of the [feather_*] functions). *)
Definition g_linear (t : R) : R := 1 - t.

Definition k_decay : R := ln 100.
Definition g_exp (t : R) : R := exp (- k_decay * t).

Definition g_cos (t : R) : R := 0.5 * (1 + cos (PI * t)).

Definition a_steepness : R := 12.
Definition g_sigmoid (t : R) : R := 1 / (1 + exp (a_steepness * (t - 0.5))).

(** [np.power(t, p)] with [p = 3.0]. *)
Definition g_ease_out_power (t : R) : R := 1 - t ^ 3.

(** [np.power(t, q)] with [q = 3.0]. *)
Definition g_ease_out_exp (t : R) : R := exp (- k_decay * t ^ 3).

Definition feather_linear (mask : grid bool) (width : R) : grid R :=
  _feather mask g_linear width.

Definition feather_exp (mask : grid bool) (width : R) : grid R :=
  _feather mask g_exp width.

Definition feather_cos (mask : grid bool) (width : R) : grid R :=
  _feather mask g_cos width.

Definition feather_sigmoid (mask : grid bool) (width : R) : grid R :=
  _feather mask g_sigmoid width.

Definition feather_ease_out_power (mask : grid bool) (width : R) : grid R :=
  _feather mask g_ease_out_power width.

Definition feather_ease_out_exp (mask : grid bool) (width : R) : grid R :=
  _feather mask g_ease_out_exp width.

(** [class FeatheringMethod(str, Enum)]: the members and their values. *)
Inductive FeatheringMethod :=
| NONE | LINEAR | EXPONENTIAL | COSINE | SIGMOID | EASE_OUT_POWER | EASE_OUT_EXP.

Definition value (m : FeatheringMethod) : string :=
  match m with
  | NONE => "none"
  | LINEAR => "linear"
  | EXPONENTIAL => "exponential"
  | COSINE => "cosine"
  | SIGMOID => "sigmoid"
  | EASE_OUT_POWER => "ease_out_power"
  | EASE_OUT_EXP => "ease_out_exp"
  end.

(** Outcome of [apply_feathering]: the matte, the [ValueError] it raises,
    or the [cv2.error] that escapes from the cleaning step. *)
Inductive result :=
| Ok (alpha : grid R)
| ValueError (msg : string)
| Cv2Error.

(** [mask.astype(np.float32)] on a boolean array. *)
Definition astype_float32 (mask : grid bool) : grid R :=
  gmap (fun b : bool => if b then 1 else 0) mask.

(** [apply_feathering(mask, method, width)].  [method] is compared by its
    string value, as a [str]-based enum member is. *)
Definition apply_feathering (mask : grid bool) (method : string) (width : R)
  : result :=
  match smooth_open_close mask 4 with
  | Raises => Cv2Error
  | Returns mask =>
      if String.eqb method (value NONE) then Ok (astype_float32 mask)
      else if String.eqb method (value LINEAR)
           then Ok (feather_linear mask width)
      else if String.eqb method (value EXPONENTIAL)
           then Ok (feather_exp mask width)
      else if String.eqb method (value COSINE) then Ok (feather_cos mask width)
      else if String.eqb method (value SIGMOID)
           then Ok (feather_sigmoid mask width)
      else if String.eqb method (value EASE_OUT_POWER)
           then Ok (feather_ease_out_power mask width)
      else if String.eqb method (value EASE_OUT_EXP)
           then Ok (feather_ease_out_exp mask width)
      else ValueError ("Unknown feathering method: " ++ method)
  end.

(** The profile [apply_feathering] hands to [_feather] for each member;
    [NONE] has none. *)
Definition profile (m : FeatheringMethod) : option (R -> R) :=
  match m with
  | NONE => None
  | LINEAR => Some g_linear
  | EXPONENTIAL => Some g_exp
  | COSINE => Some g_cos
  | SIGMOID => Some g_sigmoid
  | EASE_OUT_POWER => Some g_ease_out_power
  | EASE_OUT_EXP => Some g_ease_out_exp
  end.

(** ** Mask encoding helpers (backend/api/routes.py) *)

(** [mask.shape[1]] and [mask.shape[0]] of a 2-D array with at least one
    row (the width of an array without rows is not kept by a nested list). *)
Definition ncols {A} (g : grid A) : nat :=
  match g with
  | [] => 0%nat
  | row :: _ => length row
  end.

Definition nrows {A} (g : grid A) : nat := length g.

(** [np.any(mask > 0, axis=1)]: one flag per row. *)
Definition rows_any (mask : grid R) : list bool :=
  map (existsb (Rltb 0)) mask.

(** [np.any(mask > 0, axis=0)]: one flag per column. *)
Definition cols_any (mask : grid R) : list bool :=
  map (fun j =>
         existsb (fun row => match nth_error row j with
                             | Some v => Rltb 0 v
                             | None => false
                             end) mask)
      (seq 0 (ncols mask)).

(** [np.where(v)[0]]: the indices of the true flags, ascending. *)
Definition where_true (v : list bool) : list nat :=
  filter (fun i => nth i v false) (seq 0 (length v)).

(** [_get_mask_bbox]: (x_min, y_min, x_max, y_max), upper bounds exclusive;
    the full image for a mask without positive pixel. *)
Definition _get_mask_bbox (mask : grid R) : nat * nat * nat * nat :=
  let rows := rows_any mask in
  let cols := cols_any mask in
  if negb (existsb (fun b => b) rows) || negb (existsb (fun b => b) cols)
  then (0, 0, ncols mask, nrows mask)%nat
  else
    let ys := where_true rows in
    let xs := where_true cols in
    let '(y_min, y_max) := (hd 0%nat ys, last ys 0%nat) in
    let '(x_min, x_max) := (hd 0%nat xs, last xs 0%nat) in
    (x_min, y_min, x_max + 1, y_max + 1)%nat.

(** A pixel of a float mask is positive. *)
Definition positive (mask : grid R) (i j : nat) : Prop :=
  exists v, pixel mask i j = Some v /\ 0 < v.

(** An [H] x [W] array. *)
Definition rectangular {A} (g : grid A) (H W : nat) : Prop :=
  shape g = repeat W H.

(** [x.astype(np.uint8)] of a float with [0 <= x < 256]: the fractional
    part is dropped (outside that range the conversion is not defined). *)
Definition astype_uint8 (x : R) : Z := Int_part x.

(** [(mask * 255).astype(np.uint8)]: the 8-bit alpha / grey channel built by
    [_create_masked_image] and [_create_mask_image]. *)
Definition scale_to_uint8 (mask : grid R) : grid Z :=
  gmap (fun v => astype_uint8 (v * 255)) mask.

(** ** Request handling (backend/api/routes.py) *)

(** A Python float as [json.loads] can produce it: a finite value (a
    rational), NaN, or an infinity. *)
Inductive pyfloat :=
| Finite (q : QArith_base.Q)
| NaN
| Inf (negative : bool).

(** The values [json.loads] returns.  A dict is kept as its list of items,
    looked up by key. *)
#[warnings="-register-all"] Inductive json :=
| JNull
| JBool (b : bool)
| JInt (n : Z)
| JFloat (f : pyfloat)
| JStr (s : string)
| JList (items : list json)
| JDict (fields : list (string * json)).

(** The exceptions the handlers and the service can meet.  [ValueErr] is
    ValueError or a subclass of it other than JSONDecodeError; the other
    constructors are classes that do not derive from ValueError. *)
Inductive exn :=
| JSONDecodeError (msg : string)
| ValueErr (msg : string)
| TypeError (msg : string)
| OverflowError (msg : string)
| AttributeError (msg : string)
| RecursionError (msg : string)
| OtherError (name msg : string)
| cv2_error.

(** What a handler does: return a body, raise an [HTTPException], or let
    an exception escape. *)
Inductive outcome (A : Type) :=
| Return (a : A)
| HTTPException (status_code : Z) (detail : string)
| Uncaught (e : exn).

Arguments Return {A} a.
Arguments HTTPException {A} status_code detail.
Arguments Uncaught {A} e.

(** [d.get(k)] / [k in d] / [d[k] = v] on the items of a dict. *)
Fixpoint dict_get {V} (k : string) (d : list (string * V)) : option V :=
  match d with
  | [] => None
  | (k', v) :: d' => if String.eqb k k' then Some v else dict_get k d'
  end.

Definition dict_mem {V} (k : string) (d : list (string * V)) : bool :=
  match dict_get k d with
  | Some _ => true
  | None => false
  end.

Fixpoint dict_set {V} (k : string) (v : V) (d : list (string * V))
  : list (string * V) :=
  match d with
  | [] => [(k, v)]
  | (k', v') :: d' =>
      if String.eqb k k' then (k', v) :: d' else (k', v') :: dict_set k v d'
  end.

(** [isinstance(v, (int, float))]; [bool] is a subclass of [int]. *)
Definition is_numeric (v : json) : bool :=
  match v with
  | JInt _ | JBool _ | JFloat _ => true
  | _ => false
  end.

(** [int(v)]: truncation toward zero for a finite float; NaN raises
    ValueError, an infinity raises OverflowError. *)
Definition py_int (v : json) : exn + Z :=
  match v with
  | JInt n => inr n
  | JBool b => inr (if b then 1 else 0)%Z
  | JFloat (Finite q) =>
      inr (Z.quot (QArith_base.Qnum q) (Z.pos (QArith_base.Qden q)))
  | JFloat NaN => inl (ValueErr "cannot convert float NaN to integer")
  | JFloat (Inf _) =>
      inl (OverflowError "cannot convert float infinity to integer")
  | _ => inl (TypeError "int() argument must be a string or a real number")
  end.

(** The body of the loop over [points_list]: checks one point and replaces
    its coordinates by integers ([x] first, then [y]). *)
Definition validate_point (point : json) : exn + json :=
  match point with
  | JDict d =>
      match dict_get "x" d, dict_get "y" d with
      | Some x, Some y =>
          if negb (is_numeric x) || negb (is_numeric y)
          then inl (ValueErr "Point coordinates must be numeric")
          else
            match py_int x with
            | inl e => inl e
            | inr xi =>
                match py_int y with
                | inl e => inl e
                | inr yi =>
                    inr (JDict (dict_set "y" (JInt yi)
                                         (dict_set "x" (JInt xi) d)))
                end
            end
      | _, _ => inl (ValueErr "Each point must have x and y fields")
      end
  | _ => inl (ValueErr "Each point must have x and y fields")
  end.

(** The loop over the points, stopping at the first exception. *)
Fixpoint validate_points (points_list : list json) : exn + list json :=
  match points_list with
  | [] => inr []
  | point :: rest =>
      match validate_point point with
      | inl e => inl e
      | inr point' =>
          match validate_points rest with
          | inl e => inl e
          | inr rest' => inr (point' :: rest')
          end
      end
  end.

(** [isinstance(label, int) and label in [0, 1]]. *)
Definition valid_label (label : json) : bool :=
  match label with
  | JInt n => (n =? 0)%Z || (n =? 1)%Z
  | JBool _ => true
  | _ => false
  end.

(** The [try] block of [run_inpainting].  The two arguments stand for
    [json.loads(points)] and [json.loads(labels)]: the parsed value, or the
    exception the call raises (JSONDecodeError on malformed text,
    RecursionError on text nested too deeply, ...). *)
Definition parse_points_labels (points labels : exn + json)
  : exn + (list json * list json) :=
  match points with
  | inl e => inl e
  | inr (JList points_list) =>
      match validate_points points_list with
      | inl e => inl e
      | inr points_list =>
          match labels with
          | inl e => inl e
          | inr (JList labels_list) =>
              if negb (forallb valid_label labels_list)
              then inl (ValueErr
                          "Each label must be 0 (negative) or 1 (positive)")
              else if negb (length points_list =? length labels_list)%nat
              then inl (ValueErr "Points and labels must have the same length")
              else inr (points_list, labels_list)
          | inr _ => inl (ValueErr "Labels must be a list")
          end
      end
  | inr _ => inl (ValueErr "Points must be a list")
  end.

(** The in-memory store [uploaded_images]: image id -> bytes. *)
Definition image_store := list (string * list Byte.byte).

(** [run_inpainting] up to the end of its validation: the two 404 checks,
    then the [try] block, whose JSONDecodeError and ValueError become a 400;
    any other exception escapes. *)
Definition run_inpainting_validate
    (uploaded_images : image_store)
    (original_image_id : string) (mask_image_id : option string)
    (points labels : exn + json)
  : outcome (list json * list json) :=
  if negb (dict_mem original_image_id uploaded_images)
  then HTTPException 404 "Original image not found"
  else if match mask_image_id with
          | Some id => negb (String.eqb id "")
                       && negb (dict_mem id uploaded_images)
          | None => false
          end
  then HTTPException 404 "Mask image not found"
  else
    match parse_points_labels points labels with
    | inr r => Return r
    | inl (JSONDecodeError msg) | inl (ValueErr msg) =>
        HTTPException 400 ("Invalid points/labels format: " ++ msg)
    | inl e => Uncaught e
    end.

(** [upload_image]; [image_id] stands for the fresh [uuid4]. *)
Definition upload_image
    (uploaded_images : image_store) (image_id : string)
    (content_type : option string) (filename image_type : string)
    (contents : list Byte.byte)
  : outcome (string * string * string * nat) * image_store :=
  match content_type with
  | None =>
      (Uncaught (AttributeError
                   "'NoneType' object has no attribute 'startswith'"),
       uploaded_images)
  | Some ct =>
      if negb (String.prefix "image/" ct)
      then (HTTPException 400 "File must be an image", uploaded_images)
      else (Return (image_id, image_type, filename, length contents),
            dict_set image_id contents uploaded_images)
  end.

(** The coordinates read from a validated point, [(p["x"], p["y"])]. *)
Definition point_xy (point : json) : option (json * json) :=
  match point with
  | JDict d =>
      match dict_get "x" d, dict_get "y" d with
      | Some x, Some y => Some (x, y)
      | _, _ => None
      end
  | _ => None
  end.

(** The integer a label stands for in [np.array(labels, dtype=np.int32)]. *)
Definition label_value (label : json) : option Z :=
  match label with
  | JInt n => Some n
  | JBool b => Some (if b then 1 else 0)%Z
  | _ => None
  end.

(** A coordinate [int()] accepts: an int, a bool or a finite float. *)
Definition finite_number (v : json) : bool :=
  match v with
  | JInt _ | JBool _ | JFloat (Finite _) => true
  | _ => false
  end.

(** A coordinate is an infinite float. *)
Definition is_infinite (v : json) : bool :=
  match v with
  | JFloat (Inf _) => true
  | _ => false
  end.

(** The module-level state of routes.py: [uploaded_images], [job_status]
    and [job_connections] (web sockets are numbered). *)
Record server_state := {
  st_uploaded_images : image_store;
  st_job_status : list (string * json);
  st_job_connections : list (string * list nat)
}.

Definition initial_state : server_state :=
  {| st_uploaded_images := []; st_job_status := []; st_job_connections := [] |}.

(** [get_job_status]. *)
Definition get_job_status (st : server_state) (job_id : string)
  : outcome json :=
  match dict_get job_id (st_job_status st) with
  | None => HTTPException 404 "Job not found"
  | Some status => Return status
  end.

(** [l.remove(x)]: drops the first occurrence. *)
Fixpoint list_remove (x : nat) (l : list nat) : list nat :=
  match l with
  | [] => []
  | y :: l' => if Nat.eqb x y then l' else y :: list_remove x l'
  end.

(** What reaches the router: the three HTTP requests, and the two moments
    at which [websocket_progress] touches the state (registration after
    [accept], and the [finally] block). *)
Inductive request :=
| ReqUpload (image_id : string) (content_type : option string)
            (filename image_type : string) (contents : list Byte.byte)
| ReqRun (original_image_id : string) (mask_image_id : option string)
         (points labels : exn + json)
| ReqJob (job_id : string)
| WsRegister (job_id : string) (websocket : nat)
| WsUnregister (job_id : string) (websocket : nat).

(** The effect of each of them on the state. *)
Definition handle (st : server_state) (r : request) : server_state :=
  match r with
  | ReqUpload image_id content_type filename image_type contents =>
      {| st_uploaded_images :=
           snd (upload_image (st_uploaded_images st) image_id content_type
                             filename image_type contents);
         st_job_status := st_job_status st;
         st_job_connections := st_job_connections st |}
  | ReqRun _ _ _ _ => st
  | ReqJob _ => st
  | WsRegister job_id websocket =>
      let conns :=
        match dict_get job_id (st_job_connections st) with
        | Some l => l
        | None => []
        end in
      {| st_uploaded_images := st_uploaded_images st;
         st_job_status := st_job_status st;
         st_job_connections :=
           dict_set job_id (conns ++ [websocket]) (st_job_connections st) |}
  | WsUnregister job_id websocket =>
      match dict_get job_id (st_job_connections st) with
      | Some l =>
          {| st_uploaded_images := st_uploaded_images st;
             st_job_status := st_job_status st;
             st_job_connections :=
               dict_set job_id (list_remove websocket l)
                        (st_job_connections st) |}
      | None => st
      end
  end.

(** ** Mask generation service (backend/api/mask_generation_service.py) *)

(** consts.py *)
Definition FEATHER_METHOD : string := value EASE_OUT_POWER.
Definition FEATHER_WIDTH : R := 10.

(** [MaskGenerationService.generate_masks], from the raw results of the SAM
    service on: each mask is feathered, its score is kept; an exception of
    [apply_feathering] ends the loop. *)
Fixpoint generate_masks {S : Type} (raw_results : list (grid bool * S))
  : exn + list (grid R * S) :=
  match raw_results with
  | [] => inr []
  | (mask, score) :: rest =>
      match apply_feathering mask FEATHER_METHOD FEATHER_WIDTH with
      | ValueError msg => inl (ValueErr msg)
      | Cv2Error => inl cv2_error
      | Ok feathered_mask =>
          match generate_masks rest with
          | inl e => inl e
          | inr refined_results =>
              inr ((feathered_mask, score) :: refined_results)
          end
      end
  end.

(** ** Test masks *)

(** An [h] x [w] mask whose only true pixel is (ci, cj). *)
Definition single_pixel_mask (h w ci cj : nat) : grid bool :=
  map (fun i => map (fun j => Nat.eqb i ci && Nat.eqb j cj) (seq 0 w)) (seq 0 h).

(** An [h] x [w] mask filled with [b]. *)
Definition const_mask (h w : nat) (b : bool) : grid bool :=
  repeat (repeat b w) h.

(** An [h] x [w] mask, true exactly on rows [r0..r1] and columns [c0..c1]. *)
Definition rect_mask (h w r0 r1 c0 c1 : nat) : grid bool :=
  map (fun i =>
         map (fun j => (Nat.leb r0 i && Nat.leb i r1)
                       && (Nat.leb c0 j && Nat.leb j c1))
             (seq 0 w))
      (seq 0 h).

(** A 9 x 9 block in a 25 x 25 image: large enough to survive the cleaning. *)
Definition square_mask : grid bool := rect_mask 25 25 8 16 10 18.

(** A 5 x 5 block in a 15 x 15 image: it holds the radius-2 disk, not the
    radius-4 one. *)
Definition block_mask : grid bool := rect_mask 15 15 5 9 5 9.

(** Two one-pixel stripes one pixel apart, in a 7 x 7 image. *)
Definition stripes_mask : grid bool :=
  gzip_with orb (rect_mask 7 7 0 6 2 2) (rect_mask 7 7 0 6 4 4).

(** A store with one uploaded image, and a request body for it: one point
    given as a float and a bool, one positive label given as a bool. *)
Definition demo_store : image_store := [("img-1"%string, [])].

Definition demo_points : list json :=
  [JDict [("y"%string, JBool true);
          ("x"%string, JFloat (Finite (QArith_base.Qmake 5 2)))]].

Definition demo_labels : list json := [JBool true].

(** ** Vocabulary of the statements *)

(** Pixel classes of a (cleaned) mask, and the true Euclidean metric. *)
Definition interior (M : grid bool) (q : nat * nat) : Prop :=
  pixel M (fst q) (snd q) = Some true.

Definition exterior (M : grid bool) (p : nat * nat) : Prop :=
  pixel M (fst p) (snd p) = Some false.

Definition euclidean (p q : nat * nat) : R :=
  sqrt ((INR (fst p) - INR (fst q)) ^ 2 + (INR (snd p) - INR (snd q)) ^ 2).

(** [q] is an interior pixel of [M] at least Euclidean distance from [p]. *)
Definition nearest_interior (M : grid bool) (p q : nat * nat) : Prop :=
  interior M q /\ forall q', interior M q' -> euclidean p q <= euclidean p q'.

(** Value [_feather] composes at one pixel, from the mask bit and the squared
    distance to the nearest interior pixel. *)
Definition feather_value (g : R -> R) (w : R) (b : bool) (d2 : Z) : R :=
  if b then 1
  else if Rltb (sqrt (IZR d2)) w then g (clip (sqrt (IZR d2) / w) 0 1)
  else 0.

Definition coord_eqb (p q : nat * nat) : bool :=
  Nat.eqb (fst p) (fst q) && Nat.eqb (snd p) (snd q).

(** Executable check of [nearest_interior]. *)
Definition nearest_interiorb (M : grid bool) (p q : nat * nat) : bool :=
  let zs := zero_coords (gnot M) in
  existsb (coord_eqb q) zs
  && forallb (fun q' => (sq_dist p q <=? sq_dist p q')%Z) zs.

(** Offsets covered by a structuring element. *)
Definition covers (se : kernel) (dy dx : Z) : Prop :=
  In (dy, dx) (kernel_offsets se).

(** Every image pixel under the element centred at (i, j) is set. *)
Definition fits (img : grid Z) (se : kernel) (i j : nat) : Prop :=
  forall dy dx v,
    covers se dy dx ->
    pixelZ img (Z.of_nat i + dy) (Z.of_nat j + dx) = Some v -> (0 < v)%Z.

(** Some image pixel under the element centred at (i, j) is set. *)
Definition hits (img : grid Z) (se : kernel) (i j : nat) : Prop :=
  exists dy dx v,
    covers se dy dx /\
    pixelZ img (Z.of_nat i + dy) (Z.of_nat j + dx) = Some v /\ (0 < v)%Z.

(** A position lies in the image. *)
Definition inside {A} (g : grid A) (y x : Z) : Prop := pixelZ g y x <> None.

(** The 8-bit image is non-zero at a position (which then lies in it). *)
Definition lit (img : grid Z) (y x : Z) : Prop :=
  exists v, pixelZ img y x = Some v /\ (0 < v)%Z.

(** Inclusion of boolean masks, pixel by pixel. *)
Definition subset (M N : grid bool) : Prop :=
  forall i j, pixel M i j = Some true -> pixel N i j = Some true.

(** Erosion and dilation of a set [X] of positions of the image domain [D]
    by the offsets [cov], and their compositions. *)
Definition ero (cov D X : Z -> Z -> Prop) (y x : Z) : Prop :=
  D y x /\
  forall dy dx, cov dy dx -> D (y + dy)%Z (x + dx)%Z -> X (y + dy)%Z (x + dx)%Z.

Definition dil (cov D X : Z -> Z -> Prop) (y x : Z) : Prop :=
  D y x /\ exists dy dx, cov dy dx /\ X (y + dy)%Z (x + dx)%Z.

Definition opening (cov D X : Z -> Z -> Prop) : Z -> Z -> Prop :=
  dil cov D (ero cov D X).

Definition closing (cov D X : Z -> Z -> Prop) : Z -> Z -> Prop :=
  ero cov D (dil cov D X).

(** Executable check of [subset] for masks of one shape. *)
Definition subsetb (M N : grid bool) : bool := all (gzip_with implb M N).

(** * Properties *)

(** ** Grid lemmas *)

Section ListLemmas.
Context {A B C : Type}.

Lemma nth_error_imap_from (f : nat -> A -> B) l n i :
  nth_error (imap_from f n l) i = option_map (f (n + i)%nat) (nth_error l i).
Proof.
  revert n i; induction l as [|x l IH]; intros n [|i]; simpl; auto.
  - now rewrite Nat.add_0_r.
  - rewrite IH; simpl. now rewrite Nat.add_succ_r.
Qed.

Lemma nth_error_imap (f : nat -> A -> B) l i :
  nth_error (imap f l) i = option_map (f i) (nth_error l i).
Proof. unfold imap. now rewrite nth_error_imap_from. Qed.

Lemma length_imap_from (f : nat -> A -> B) l n :
  length (imap_from f n l) = length l.
Proof. revert n; induction l; simpl; auto. Qed.

Lemma nth_error_zip_with (f : A -> B -> C) l1 l2 i :
  nth_error (zip_with f l1 l2) i =
  match nth_error l1 i, nth_error l2 i with
  | Some x, Some y => Some (f x y)
  | _, _ => None
  end.
Proof.
  revert l2 i; induction l1 as [|x l1 IH]; intros [|y l2] [|i]; simpl; auto.
  now destruct (nth_error l1 i).
Qed.

End ListLemmas.

Section GridLemmas.
Context {A B C : Type}.

Lemma pixel_gmap (f : A -> B) g i j :
  pixel (gmap f g) i j = option_map f (pixel g i j).
Proof.
  unfold pixel, gmap. rewrite nth_error_map.
  destruct (nth_error g i); simpl; auto. apply nth_error_map.
Qed.

Lemma pixel_gimap (f : nat -> nat -> A -> B) g i j :
  pixel (gimap f g) i j = option_map (f i j) (pixel g i j).
Proof.
  unfold pixel, gimap. rewrite nth_error_imap.
  destruct (nth_error g i); cbn [option_map]; auto. apply nth_error_imap.
Qed.

Lemma pixel_gzip_with (f : A -> B -> C) g1 g2 i j :
  pixel (gzip_with f g1 g2) i j =
  match pixel g1 i j, pixel g2 i j with
  | Some x, Some y => Some (f x y)
  | _, _ => None
  end.
Proof.
  unfold pixel, gzip_with. rewrite nth_error_zip_with.
  destruct (nth_error g1 i) as [r1|], (nth_error g2 i) as [r2|]; auto.
  - apply nth_error_zip_with.
  - now destruct (nth_error r1 j).
Qed.

Lemma shape_gmap (f : A -> B) g : shape (gmap f g) = shape g.
Proof.
  unfold shape, gmap. rewrite map_map. apply map_ext.
  intros; apply length_map.
Qed.

Lemma shape_gimap (f : nat -> nat -> A -> B) g : shape (gimap f g) = shape g.
Proof.
  unfold shape, gimap. unfold imap at 1. generalize 0%nat.
  induction g as [|row g IH]; intros n; simpl; auto.
  rewrite IH. f_equal. unfold imap. apply length_imap_from.
Qed.

Lemma shape_zip_same (f : A -> B -> C) g1 g2 :
  shape g1 = shape g2 -> shape (gzip_with f g1 g2) = shape g1.
Proof.
  unfold shape, gzip_with. revert g2.
  induction g1 as [|r1 g1 IH]; intros [|r2 g2]; simpl; try discriminate; auto.
  intros H; injection H as Hr Hg. rewrite (IH _ Hg). f_equal.
  clear -Hr. revert r2 Hr.
  induction r1 as [|x r1 IH]; intros [|y r2]; simpl; try discriminate; auto.
Qed.

(** Grids with the same shape and the same pixels are equal. *)
Lemma grid_ext (g1 g2 : grid A) :
  shape g1 = shape g2 ->
  (forall i j, pixel g1 i j = pixel g2 i j) ->
  g1 = g2.
Proof.
  revert g2; induction g1 as [|r1 g1 IH]; intros [|r2 g2]; simpl;
    try discriminate; auto.
  intros Hs Hp. injection Hs as Hr Hg. f_equal.
  - apply nth_error_ext. intros j. apply (Hp 0%nat j).
  - apply IH; auto. intros i j. apply (Hp (S i) j).
Qed.
End GridLemmas.

(** ** Boolean reductions *)

Lemma any_false_pixel M i j b :
  any M = false -> pixel M i j = Some b -> b = false.
Proof.
  unfold any, pixel. intros Hany Hp.
  destruct (nth_error M i) as [row|] eqn:Hrow; [|discriminate].
  destruct b; auto.
  assert (Hex : existsb (existsb (fun b => b)) M = true).
  { apply existsb_exists. exists row. split.
    - eapply nth_error_In; eauto.
    - apply existsb_exists. exists true. split; auto.
      eapply nth_error_In; eauto. }
  congruence.
Qed.

Lemma any_true_exists M :
  any M = true -> exists i j, pixel M i j = Some true.
Proof.
  unfold any, pixel. intros H.
  apply existsb_exists in H as (row & Hrow & H).
  apply existsb_exists in H as (b & Hb & ->).
  apply In_nth_error in Hrow as (i & Hi).
  apply In_nth_error in Hb as (j & Hj).
  exists i, j. now rewrite Hi.
Qed.

Lemma all_true_pixel M i j b :
  all M = true -> pixel M i j = Some b -> b = true.
Proof.
  unfold all, pixel. intros Hall Hp.
  destruct (nth_error M i) as [row|] eqn:Hrow; [|discriminate].
  rewrite forallb_forall in Hall.
  specialize (Hall row (nth_error_In _ _ Hrow)).
  rewrite forallb_forall in Hall.
  apply (Hall b). eapply nth_error_In; eauto.
Qed.

Lemma all_false_exists M :
  all M = false -> exists i j, pixel M i j = Some false.
Proof.
  unfold all, pixel. intros H.
  induction M as [|row M IH]; simpl in H; [discriminate|].
  apply andb_false_iff in H as [H|H].
  - exists 0%nat. simpl. clear IH.
    induction row as [|b row IH]; simpl in H; [discriminate|].
    destruct b; simpl in H.
    + destruct (IH H) as (j & Hj). now exists (S j).
    + now exists 0%nat.
  - destruct (IH H) as (i & j & Hij). now exists (S i), j.
Qed.

(** ** Distance transform lemmas *)

Lemma in_concat_imap {A B} (f : nat -> A -> list B) l y :
  In y (concat (imap f l)) <->
  exists i x, nth_error l i = Some x /\ In y (f i x).
Proof.
  rewrite in_concat. split.
  - intros (ys & Hys & Hy).
    apply In_nth_error in Hys as (i & Hi).
    rewrite nth_error_imap in Hi.
    destruct (nth_error l i) as [x|] eqn:Hx; [|discriminate].
    injection Hi as <-. now exists i, x.
  - intros (i & x & Hx & Hy). exists (f i x). split; auto.
    apply nth_error_In with (n := i). rewrite nth_error_imap. now rewrite Hx.
Qed.

Lemma zero_coords_spec input i j :
  In (i, j) (zero_coords input) <-> pixel input i j = Some false.
Proof.
  unfold zero_coords, pixel. rewrite in_concat_imap. split.
  - intros (i' & row & Hrow & H).
    apply in_concat_imap in H as (j' & b & Hb & H).
    destruct b; simpl in H; [contradiction|].
    destruct H as [H|[]]. injection H as -> ->.
    now rewrite Hrow.
  - intros H. destruct (nth_error input i) as [row|] eqn:Hrow; [|discriminate].
    exists i, row. split; auto.
    apply in_concat_imap. exists j, false. split; simpl; auto.
Qed.

Lemma fold_min_le d l x : In x (d :: l) -> (fold_right Z.min d l <= x)%Z.
Proof.
  induction l as [|y l IH]; simpl.
  - intros [->|[]]. lia.
  - intros [->|[->|H]].
    + specialize (IH (or_introl eq_refl)). lia.
    + lia.
    + specialize (IH (or_intror H)). lia.
Qed.

Lemma fold_min_in d l : In (fold_right Z.min d l) (d :: l).
Proof.
  induction l as [|y l IH]; simpl; auto.
  destruct (Z.min_spec y (fold_right Z.min d l)) as [[_ ->]|[_ ->]]; auto.
  destruct IH; auto.
Qed.

Lemma nearest_sq_le zs p q :
  In q zs -> (nearest_sq zs p <= sq_dist p q)%Z.
Proof.
  destruct zs as [|z zs]; [contradiction|]. intros H. simpl.
  apply fold_min_le. change (In (sq_dist p q) (map (sq_dist p) (z :: zs))).
  now apply in_map.
Qed.

Lemma nearest_sq_in zs p :
  zs <> [] -> exists q, In q zs /\ nearest_sq zs p = sq_dist p q.
Proof.
  destruct zs as [|z zs]; [congruence|]. intros _. simpl.
  pose proof (fold_min_in (sq_dist p z) (map (sq_dist p) zs)) as H.
  change (In (fold_right Z.min (sq_dist p z) (map (sq_dist p) zs))
             (map (sq_dist p) (z :: zs))) in H.
  apply in_map_iff in H as (q & Hq & Hin). eauto.
Qed.

Lemma nearest_sq_min zs p q :
  In q zs ->
  (forall q', In q' zs -> (sq_dist p q <= sq_dist p q')%Z) ->
  nearest_sq zs p = sq_dist p q.
Proof.
  intros Hq Hmin.
  destruct (nearest_sq_in (zs := zs) p) as (q0 & Hq0 & E).
  { intros ->. contradiction. }
  pose proof (@nearest_sq_le zs p q Hq). specialize (Hmin _ Hq0). lia.
Qed.

Lemma sq_dist_nonneg p q : (0 <= sq_dist p q)%Z.
Proof. unfold sq_dist. nia. Qed.

Lemma nearest_sq_nonneg zs p : (0 <= nearest_sq zs p)%Z.
Proof.
  destruct zs as [|z zs]; [simpl; lia|].
  destruct (nearest_sq_in (zs := z :: zs) p) as (q & _ & ->); [discriminate|].
  apply sq_dist_nonneg.
Qed.

(** ** Pixelwise description of [_feather] *)

Lemma euclidean_sq_dist p q : euclidean p q = sqrt (IZR (sq_dist p q)).
Proof.
  unfold euclidean, sq_dist. f_equal.
  rewrite plus_IZR, !Z.pow_2_r, !mult_IZR, !minus_IZR, <- !INR_IZR_INZ. ring.
Qed.

Lemma euclidean_le_sq p q q' :
  euclidean p q <= euclidean p q' <-> (sq_dist p q <= sq_dist p q')%Z.
Proof.
  rewrite !euclidean_sq_dist. split; intros H.
  - apply le_IZR. apply sqrt_le_0; auto; apply IZR_le, sq_dist_nonneg.
  - apply sqrt_le_1; try apply IZR_le; auto using sq_dist_nonneg.
Qed.

Lemma interior_zero_coords M q :
  In q (zero_coords (gnot M)) <-> interior M q.
Proof.
  destruct q as [i j]. rewrite zero_coords_spec. unfold interior, gnot; simpl.
  rewrite pixel_gmap. destruct (pixel M i j) as [[|]|]; simpl; split; congruence.
Qed.

(** The distance transform is the exact Euclidean distance to the nearest
    interior pixel. *)
Lemma nearest_sq_euclidean M p q :
  nearest_interior M p q ->
  sqrt (IZR (nearest_sq (zero_coords (gnot M)) p)) = euclidean p q.
Proof.
  intros [Hq Hmin]. rewrite euclidean_sq_dist. do 2 f_equal.
  apply nearest_sq_min.
  - now apply interior_zero_coords.
  - intros q' Hq'. apply euclidean_le_sq, Hmin. now apply interior_zero_coords.
Qed.

Lemma _feather_pixel M g w i j :
  any M = true -> all M = false ->
  pixel (_feather M g w) i j =
  option_map
    (fun b => feather_value g w b (nearest_sq (zero_coords (gnot M)) (i, j)))
    (pixel M i j).
Proof.
  intros Hany Hall. unfold _feather. rewrite Hany, Hall. simpl.
  unfold assign_where, gand, full_like, distance_transform_edt, edt_sq, gnot.
  repeat (rewrite ?pixel_gzip_with, ?pixel_gmap, ?pixel_gimap).
  destruct (pixel M i j) as [[|]|]; simpl; auto.
Qed.

Lemma _feather_shape M g w : shape (_feather M g w) = shape M.
Proof.
  unfold _feather.
  destruct (any M); simpl; [|apply shape_gmap].
  destruct (all M); [apply shape_gmap|].
  unfold assign_where, gand, full_like, distance_transform_edt, edt_sq, gnot.
  repeat (rewrite ?shape_zip_same, ?shape_gmap, ?shape_gimap); auto.
Qed.

(** ** The profile functions *)

Lemma clip_range x : 0 <= clip x 0 1 <= 1.
Proof.
  unfold clip, Rmin, Rmax.
  destruct (Rle_dec x 0); destruct (Rle_dec _ 1); lra.
Qed.

Lemma clip_id x : 0 <= x <= 1 -> clip x 0 1 = x.
Proof.
  intros H. unfold clip, Rmin, Rmax.
  destruct (Rle_dec x 0); destruct (Rle_dec _ 1); lra.
Qed.

Lemma k_decay_pos : 0 < k_decay.
Proof.
  unfold k_decay. rewrite <- ln_1. apply ln_increasing; lra.
Qed.

Lemma exp_le_mono x y : x <= y -> exp x <= exp y.
Proof.
  intros [H| ->]; [left; now apply exp_increasing | right; reflexivity].
Qed.

Lemma cube_le_mono x y : 0 <= x -> x <= y -> x ^ 3 <= y ^ 3.
Proof. intros. apply pow_incr; lra. Qed.

Lemma cube_range t : 0 <= t <= 1 -> 0 <= t ^ 3 <= 1.
Proof.
  intros [H0 H1]. split.
  - apply pow_le; lra.
  - rewrite <- (pow1 3). apply pow_incr; lra.
Qed.

Section Profiles.
Variables t1 t2 : R.
Hypothesis H0 : 0 <= t1.
Hypothesis H12 : t1 <= t2.
Hypothesis H1 : t2 <= 1.

Lemma g_linear_decr : g_linear t2 <= g_linear t1.
Proof. unfold g_linear. lra. Qed.

Lemma g_exp_decr : g_exp t2 <= g_exp t1.
Proof.
  unfold g_exp. apply exp_le_mono. pose proof k_decay_pos. nra.
Qed.

Lemma g_cos_decr : g_cos t2 <= g_cos t1.
Proof.
  unfold g_cos. pose proof PI_RGT_0 as Hpi.
  assert (cos (PI * t2) <= cos (PI * t1)); [|lra].
  apply cos_decr_1; nra.
Qed.

Lemma g_sigmoid_decr : g_sigmoid t2 <= g_sigmoid t1.
Proof.
  unfold g_sigmoid, a_steepness.
  pose proof (exp_pos (12 * (t1 - 0.5))) as P1.
  pose proof (exp_pos (12 * (t2 - 0.5))) as P2.
  assert (exp (12 * (t1 - 0.5)) <= exp (12 * (t2 - 0.5)))
    by (apply exp_le_mono; lra).
  unfold Rdiv. rewrite !Rmult_1_l.
  apply Rinv_le_contravar; lra.
Qed.

Lemma g_ease_out_power_decr : g_ease_out_power t2 <= g_ease_out_power t1.
Proof.
  unfold g_ease_out_power.
  pose proof (cube_le_mono H0 H12). lra.
Qed.

Lemma g_ease_out_exp_decr : g_ease_out_exp t2 <= g_ease_out_exp t1.
Proof.
  unfold g_ease_out_exp. apply exp_le_mono.
  pose proof k_decay_pos. pose proof (cube_le_mono H0 H12). nra.
Qed.
End Profiles.

Lemma g_linear_range t : 0 <= t <= 1 -> 0 <= g_linear t <= 1.
Proof. unfold g_linear. lra. Qed.

Lemma exp_nonpos_range x : x <= 0 -> 0 <= exp x <= 1.
Proof.
  intros H. split; [left; apply exp_pos|].
  rewrite <- exp_0. now apply exp_le_mono.
Qed.

Lemma g_exp_range t : 0 <= t <= 1 -> 0 <= g_exp t <= 1.
Proof.
  intros H. unfold g_exp. apply exp_nonpos_range.
  pose proof k_decay_pos. nra.
Qed.

Lemma g_cos_range t : 0 <= g_cos t <= 1.
Proof. unfold g_cos. pose proof (COS_bound (PI * t)). lra. Qed.

Lemma g_sigmoid_range t : 0 <= g_sigmoid t <= 1.
Proof.
  unfold g_sigmoid. pose proof (exp_pos (a_steepness * (t - 0.5))) as P.
  unfold Rdiv. rewrite Rmult_1_l. split.
  - left. apply Rinv_0_lt_compat. lra.
  - rewrite <- Rinv_1 at 2. apply Rinv_le_contravar; lra.
Qed.

(** The logistic curve never reaches 0 or 1. *)
Lemma g_sigmoid_open_range t : 0 < g_sigmoid t < 1.
Proof.
  unfold g_sigmoid. pose proof (exp_pos (a_steepness * (t - 0.5))) as P.
  unfold Rdiv. rewrite Rmult_1_l. split.
  - apply Rinv_0_lt_compat. lra.
  - rewrite <- Rinv_1 at 2. apply Rinv_lt_contravar; lra.
Qed.

Lemma g_ease_out_power_range t : 0 <= t <= 1 -> 0 <= g_ease_out_power t <= 1.
Proof. intros H. unfold g_ease_out_power. pose proof (cube_range H). lra. Qed.

Lemma g_ease_out_exp_range t : 0 <= t <= 1 -> 0 <= g_ease_out_exp t <= 1.
Proof.
  intros H. unfold g_ease_out_exp. apply exp_nonpos_range.
  pose proof k_decay_pos. pose proof (cube_range H). nra.
Qed.

Lemma profile_range m g t :
  profile m = Some g -> 0 <= t <= 1 -> 0 <= g t <= 1.
Proof.
  destruct m; simpl; intros E H; inversion E; subst;
    auto using g_linear_range, g_exp_range, g_cos_range, g_sigmoid_range,
               g_ease_out_power_range, g_ease_out_exp_range.
Qed.

Lemma g_exp_1 : g_exp 1 = 0.01.
Proof.
  unfold g_exp, k_decay. rewrite Rmult_1_r, exp_Ropp, exp_ln; lra.
Qed.

(** ** [_feather], pixel by pixel *)

Lemma Rltb_true x y : x < y -> Rltb x y = true.
Proof. unfold Rltb. intros H. destruct (Rlt_dec x y); auto. Qed.

Lemma Rltb_false x y : y <= x -> Rltb x y = false.
Proof. unfold Rltb. intros H. destruct (Rlt_dec x y); auto. lra. Qed.

Lemma euclidean_nonneg p q : 0 <= euclidean p q.
Proof. unfold euclidean. apply sqrt_pos. Qed.

Lemma pixel_full_like {A B} (v : B) (g : grid A) i j :
  pixel (full_like v g) i j = option_map (fun _ => v) (pixel g i j).
Proof. apply pixel_gmap. Qed.

Lemma interior_any M p : interior M p -> any M = true.
Proof.
  unfold interior. intros H.
  destruct (any M) eqn:E; auto.
  now pose proof (@any_false_pixel _ _ _ _ E H).
Qed.

Lemma exterior_all M p : exterior M p -> all M = false.
Proof.
  unfold exterior. intros H.
  destruct (all M) eqn:E; auto.
  now pose proof (@all_true_pixel _ _ _ _ E H).
Qed.

Section FeatherPixels.
Variables (M : grid bool) (g : R -> R) (w : R).

(** Interior pixels are preserved exactly. *)
Lemma _feather_interior p :
  interior M p -> pixel (_feather M g w) (fst p) (snd p) = Some 1.
Proof.
  intros Hp. pose proof (@interior_any _ _ Hp) as Hany.
  unfold interior in Hp.
  destruct (all M) eqn:Hall.
  - unfold _feather. rewrite Hany, Hall. simpl.
    now rewrite pixel_full_like, Hp.
  - rewrite _feather_pixel, Hp; auto.
Qed.

(** Inside the band the profile is applied to the normalised distance. *)
Lemma _feather_band p q :
  exterior M p -> nearest_interior M p q -> euclidean p q < w ->
  pixel (_feather M g w) (fst p) (snd p)
  = Some (g (clip (euclidean p q / w) 0 1)).
Proof.
  intros Hp Hq Hd. pose proof (@exterior_all _ _ Hp) as Hall.
  pose proof (@interior_any _ _ (proj1 Hq)) as Hany.
  unfold exterior in Hp.
  rewrite _feather_pixel, Hp; auto. simpl. unfold feather_value.
  rewrite <- surjective_pairing, (@nearest_sq_euclidean _ _ _ Hq).
  now rewrite Rltb_true.
Qed.

(** Outside the band the matte is zero, whatever the profile. *)
Lemma _feather_far p q :
  exterior M p -> nearest_interior M p q -> w <= euclidean p q ->
  pixel (_feather M g w) (fst p) (snd p) = Some 0.
Proof.
  intros Hp Hq Hd. pose proof (@exterior_all _ _ Hp) as Hall.
  pose proof (@interior_any _ _ (proj1 Hq)) as Hany.
  unfold exterior in Hp.
  rewrite _feather_pixel, Hp; auto. simpl. unfold feather_value.
  rewrite <- surjective_pairing, (@nearest_sq_euclidean _ _ _ Hq).
  now rewrite Rltb_false.
Qed.

(** Every value of the matte is 0, 1 or a profile value at some t in [0,1]. *)
Lemma _feather_values i j v :
  pixel (_feather M g w) i j = Some v ->
  v = 0 \/ v = 1 \/ exists t, 0 <= t <= 1 /\ v = g t.
Proof.
  destruct (any M) eqn:Hany; [destruct (all M) eqn:Hall|].
  - unfold _feather. rewrite Hany, Hall. simpl.
    rewrite pixel_full_like. destruct (pixel M i j); simpl; [|discriminate].
    intros [= <-]. auto.
  - rewrite _feather_pixel by auto.
    destruct (pixel M i j) as [[|]|]; simpl; try discriminate.
    + intros [= <-]. auto.
    + intros [= <-]. unfold feather_value.
      destruct (Rltb _ w); auto.
      right; right. eexists. split; [apply clip_range|reflexivity].
  - unfold _feather. rewrite Hany. simpl.
    rewrite pixel_full_like. destruct (pixel M i j); simpl; [|discriminate].
    intros [= <-]. auto.
Qed.
End FeatherPixels.

(** ** The structuring element *)

Unset Implicit Arguments.
Open Scope Z_scope.

Lemma nth_error_seq_0 n i : (i < n)%nat -> nth_error (seq 0 n) i = Some i.
Proof. intros H. rewrite nth_error_seq. simpl. now apply Nat.ltb_lt in H as ->. Qed.

Lemma half_of_odd r : (2 * r + 1) / 2 = r.
Proof. symmetry. apply Z.div_unique with (r := 1); lia. Qed.

Lemma ellipse_half_width_le r dy :
  0 <= r -> Z.abs dy <= r -> 0 <= ellipse_half_width r dy <= r.
Proof.
  intros Hr Hdy. unfold ellipse_half_width.
  assert (Hn : 0 <= 4 * (r * r - dy * dy)) by nia.
  pose proof (Z.sqrt_spec _ Hn) as Hs. cbv zeta in Hs.
  pose proof (Z.sqrt_nonneg (4 * (r * r - dy * dy))) as Hs0.
  set (s := Z.sqrt (4 * (r * r - dy * dy))) in *.
  assert (s <= 2 * r) by (destruct (Z.le_gt_cases s (2 * r)); auto; nia).
  split.
  - apply Z.div_pos; lia.
  - assert ((s + 1) / 2 < r + 1) by (apply Z.div_lt_upper_bound; lia). lia.
Qed.

(** Lattice points of the closed disk of radius [r] lie in the row span. *)
Lemma ellipse_half_width_lower r dy dx :
  0 <= r -> dy * dy + dx * dx <= r * r ->
  Z.abs dx <= ellipse_half_width r dy.
Proof.
  intros Hr Hd. unfold ellipse_half_width.
  assert (Hn : 0 <= 4 * (r * r - dy * dy)) by nia.
  pose proof (Z.sqrt_spec _ Hn) as Hs. cbv zeta in Hs.
  pose proof (Z.sqrt_nonneg (4 * (r * r - dy * dy))) as Hs0.
  set (s := Z.sqrt (4 * (r * r - dy * dy))) in *.
  assert (2 * Z.abs dx <= s)
    by (destruct (Z.le_gt_cases (2 * Z.abs dx) s); auto; nia).
  apply Z.div_le_lower_bound; lia.
Qed.

(** The row span stays within the disk of radius [r + 1/2]. *)
Lemma ellipse_half_width_upper r dy dx :
  0 <= r -> Z.abs dy <= r -> Z.abs dx <= ellipse_half_width r dy ->
  dy * dy + dx * dx <= r * r + r.
Proof.
  intros Hr Hdy Hdx.
  pose proof (ellipse_half_width_le r dy Hr Hdy) as Hle.
  unfold ellipse_half_width in *.
  assert (Hn : 0 <= 4 * (r * r - dy * dy)) by nia.
  pose proof (Z.sqrt_spec _ Hn) as Hs. cbv zeta in Hs.
  set (s := Z.sqrt (4 * (r * r - dy * dy))) in *.
  set (h := (s + 1) / 2) in *.
  assert (2 * h <= s + 1) by (subst h; apply Z.mul_div_le; lia).
  destruct (Z.eq_dec h 0) as [E|E].
  - assert (dx = 0) by lia. nia.
  - assert (0 <= 2 * h - 1 <= s) by lia.
    assert ((2 * h - 1) * (2 * h - 1) <= 4 * (r * r - dy * dy)) by nia.
    assert (dx * dx <= h * h) by nia.
    nia.
Qed.

Lemma disk_kernel_pixel r i j :
  0 <= r -> (i < Z.to_nat (2 * r + 1))%nat -> (j < Z.to_nat (2 * r + 1))%nat ->
  pixel (disk_kernel r) i j =
  Some (if Z.abs (Z.of_nat j - r) <=? ellipse_half_width r (Z.of_nat i - r)
        then 1 else 0).
Proof.
  intros Hr Hi Hj. unfold pixel, disk_kernel, ellipse_kernel.
  cbv zeta.
  rewrite half_of_odd.
  rewrite nth_error_map, nth_error_seq_0 by auto. cbn [option_map].
  rewrite nth_error_map, nth_error_seq_0 by auto. cbn [option_map].
  f_equal.
  assert (Z.abs (Z.of_nat i - r) <= r) by lia.
  pose proof (ellipse_half_width_le r _ Hr H).
  destruct (Z.leb_spec (Z.abs (Z.of_nat j - r))
                       (ellipse_half_width r (Z.of_nat i - r)));
    destruct (Z.leb_spec (Z.max (r - ellipse_half_width r (Z.of_nat i - r)) 0)
                         (Z.of_nat j));
    destruct (Z.ltb_spec (Z.of_nat j)
                (Z.min (r + ellipse_half_width r (Z.of_nat i - r) + 1)
                       (2 * r + 1)));
    cbn [andb]; auto; lia.
Qed.

Lemma map_const_seq {A} (c : A) a n : map (fun _ => c) (seq a n) = repeat c n.
Proof. revert a; induction n; intros a; simpl; auto. now rewrite IHn. Qed.

Lemma disk_kernel_shape r :
  0 <= r ->
  shape (disk_kernel r)
  = repeat (Z.to_nat (2 * r + 1)) (Z.to_nat (2 * r + 1)).
Proof.
  intros Hr. unfold shape, disk_kernel, ellipse_kernel.
  cbv zeta. rewrite map_map.
  erewrite map_ext;
    [|intros; rewrite length_map, length_seq; reflexivity].
  apply map_const_seq.
Qed.

(** Which offsets from the centre the disk kernel covers. *)
Lemma disk_kernel_offsets r dy dx :
  0 <= r ->
  In (dy, dx) (kernel_offsets (disk_kernel r)) <->
  Z.abs dy <= r /\ Z.abs dx <= ellipse_half_width r dy.
Proof.
  intros Hr. unfold kernel_offsets. cbv zeta.
  pose proof (disk_kernel_shape r Hr) as Hsh. unfold shape in Hsh.
  assert (Hlen : length (disk_kernel r) = Z.to_nat (2 * r + 1)).
  { rewrite <- (length_map (@length Z)), Hsh. apply repeat_length. }
  assert (Hrow : forall i row, nth_error (disk_kernel r) i = Some row ->
                               length row = Z.to_nat (2 * r + 1)).
  { intros i row Hi. eapply repeat_spec. rewrite <- Hsh.
    apply in_map. eapply nth_error_In; eauto. }
  rewrite Hlen.
  assert (Hc : Z.of_nat (Z.to_nat (2 * r + 1)) / 2 = r).
  { rewrite Z2Nat.id by lia. apply half_of_odd. }
  rewrite Hc. rewrite in_concat_imap. split.
  - intros (i & row & Hi & H).
    rewrite (Hrow _ _ Hi), Hc in H.
    apply in_concat_imap in H as (j & v & Hj & H).
    assert (Hib : (i < Z.to_nat (2 * r + 1))%nat).
    { rewrite <- Hlen. apply nth_error_Some. congruence. }
    assert (Hjb : (j < Z.to_nat (2 * r + 1))%nat).
    { rewrite <- (Hrow _ _ Hi). apply nth_error_Some. congruence. }
    pose proof (disk_kernel_pixel r _ _ Hr Hib Hjb) as Hp.
    unfold pixel in Hp. rewrite Hi, Hj in Hp. injection Hp as ->.
    destruct (Z.leb_spec (Z.abs (Z.of_nat j - r))
                         (ellipse_half_width r (Z.of_nat i - r)));
      simpl in H; [|contradiction].
    destruct H as [H|[]]. injection H as <- <-. lia.
  - intros [Hdy Hdx].
    pose proof (ellipse_half_width_le r dy Hr Hdy) as Hle.
    assert (Hib : (Z.to_nat (dy + r) < Z.to_nat (2 * r + 1))%nat) by lia.
    assert (Hjb : (Z.to_nat (dx + r) < Z.to_nat (2 * r + 1))%nat) by lia.
    pose proof (disk_kernel_pixel r _ _ Hr Hib Hjb) as Hp.
    unfold pixel in Hp.
    destruct (nth_error (disk_kernel r) (Z.to_nat (dy + r))) as [row|] eqn:Hi;
      [|discriminate].
    exists (Z.to_nat (dy + r)), row. split; auto.
    rewrite (Hrow _ _ Hi), Hc. apply in_concat_imap.
    eexists (Z.to_nat (dx + r)), _. split; [exact Hp|].
    rewrite !Z2Nat.id by lia.
    replace (dy + r - r) with dy by lia. replace (dx + r - r) with dx by lia.
    destruct (Z.leb_spec (Z.abs dx) (ellipse_half_width r dy)); [|lia].
    simpl. auto.
Qed.

(** ** Cleaning and dispatch *)

Lemma shape_erode img se : shape (erode img se) = shape img.
Proof. unfold erode. apply shape_gimap. Qed.

Lemma shape_dilate img se : shape (dilate img se) = shape img.
Proof. unfold dilate. apply shape_gimap. Qed.

Lemma shape_open_close mask r :
  shape (open_close mask r) = shape mask.
Proof.
  unfold open_close, morphology, _to_bool, _to_u8. cbv zeta.
  now rewrite shape_gmap, shape_erode, shape_dilate, shape_dilate, shape_erode,
    shape_gmap.
Qed.

Lemma full_like_shape {A B C} (v : C) (g1 : grid A) (g2 : grid B) :
  shape g1 = shape g2 -> full_like v g1 = full_like v g2.
Proof.
  intros H. apply grid_ext.
  - unfold full_like. now rewrite !shape_gmap.
  - intros i j. rewrite !pixel_full_like.
    assert (E : forall X (g : grid X),
               pixel g i j <> None <->
               exists n, nth_error (shape g) i = Some n /\ (j < n)%nat).
    { intros X g. unfold pixel, shape. rewrite nth_error_map.
      destruct (nth_error g i) as [row|]; simpl.
      - rewrite nth_error_Some. split.
        + intros Hj. eauto.
        + now intros (n & [= <-] & Hn).
      - split; [congruence|]. now intros (n & Hn & _). }
    pose proof (E _ g1) as E1. pose proof (E _ g2) as E2. rewrite H in E1.
    destruct (pixel g1 i j), (pixel g2 i j); simpl; auto.
    + exfalso. apply (proj2 E2); [|reflexivity]. apply E1. discriminate.
    + exfalso. apply (proj2 E1); [|reflexivity]. apply E2. discriminate.
Qed.

(** ** When the OpenCV calls return *)

Lemma has_pixel_shape {A B} (g1 : grid A) (g2 : grid B) :
  shape g1 = shape g2 -> has_pixel g1 = has_pixel g2.
Proof.
  unfold has_pixel, shape. revert g2.
  induction g1 as [|r1 g1 IH]; intros [|r2 g2] H; simpl in *;
    try discriminate; auto.
  injection H as H1 H2. rewrite H1. f_equal. auto.
Qed.

Lemma shape_morphology src op se : shape (morphology src op se) = shape src.
Proof.
  destruct op; simpl.
  - now rewrite shape_dilate, shape_erode.
  - now rewrite shape_erode, shape_dilate.
Qed.

Lemma has_pixel_to_u8 mask : has_pixel (_to_u8 mask) = has_pixel mask.
Proof. apply has_pixel_shape. unfold _to_u8. apply shape_gmap. Qed.

Lemma disk_kernel_returns r : 0 <= r -> _disk_kernel r = Returns (disk_kernel r).
Proof.
  intros Hr. unfold _disk_kernel, getStructuringElement_ellipse, disk_kernel.
  cbv zeta. destruct (Z.leb_spec (2 * r + 1) 0); [lia|reflexivity].
Qed.

Lemma disk_kernel_raises r : r < 0 -> _disk_kernel r = Raises.
Proof.
  intros Hr. unfold _disk_kernel, getStructuringElement_ellipse.
  cbv zeta. destruct (Z.leb_spec (2 * r + 1) 0); [reflexivity|lia].
Qed.

Lemma morphologyEx_returns src op se :
  has_pixel src = true -> morphologyEx src op se = Returns (morphology src op se).
Proof. intros H. unfold morphologyEx. now rewrite H. Qed.

Lemma morphologyEx_raises src op se :
  has_pixel src = false -> morphologyEx src op se = Raises.
Proof. intros H. unfold morphologyEx. now rewrite H. Qed.

(** The cleaning step returns for a radius that is not negative and a mask
    with a pixel, and raises otherwise. *)
Lemma smooth_open_close_returns mask r :
  0 <= r -> has_pixel mask = true ->
  smooth_open_close mask r = Returns (open_close mask r).
Proof.
  intros Hr Hp. unfold smooth_open_close. cbv zeta.
  rewrite disk_kernel_returns by exact Hr. cbn [cv2_bind].
  rewrite morphologyEx_returns by (now rewrite has_pixel_to_u8).
  cbn [cv2_bind].
  rewrite morphologyEx_returns; [reflexivity|].
  rewrite (has_pixel_shape _ (_to_u8 mask)) by apply shape_morphology.
  now rewrite has_pixel_to_u8.
Qed.

Lemma smooth_open_close_raises mask r :
  r < 0 \/ has_pixel mask = false -> smooth_open_close mask r = Raises.
Proof.
  intros H. unfold smooth_open_close. cbv zeta.
  destruct (Z.lt_ge_cases r 0) as [Hr|Hr].
  - now rewrite disk_kernel_raises.
  - destruct H as [H|H]; [lia|].
    rewrite disk_kernel_returns by exact Hr. cbn [cv2_bind].
    rewrite morphologyEx_raises; [reflexivity|]. now rewrite has_pixel_to_u8.
Qed.

Lemma smooth_open_close_inv mask r cleaned :
  smooth_open_close mask r = Returns cleaned ->
  0 <= r /\ has_pixel mask = true /\ cleaned = open_close mask r.
Proof.
  intros H. destruct (Z.lt_ge_cases r 0) as [Hr|Hr].
  - rewrite smooth_open_close_raises in H by auto. discriminate.
  - destruct (has_pixel mask) eqn:Hp.
    + rewrite smooth_open_close_returns in H by auto.
      injection H as <-. auto.
    + rewrite smooth_open_close_raises in H by auto. discriminate.
Qed.

Lemma has_pixel_open_close mask r :
  has_pixel (open_close mask r) = has_pixel mask.
Proof. apply has_pixel_shape, shape_open_close. Qed.

(** What [apply_feathering] computes for each enum member. *)
Lemma apply_feathering_value mask m w :
  has_pixel mask = true ->
  apply_feathering mask (value m) w =
  Ok (match profile m with
      | None => astype_float32 (open_close mask 4)
      | Some g => _feather (open_close mask 4) g w
      end).
Proof.
  intros Hp. unfold apply_feathering.
  rewrite smooth_open_close_returns by (auto; lia).
  destruct m; reflexivity.
Qed.

Lemma apply_feathering_raises mask method w :
  has_pixel mask = false -> apply_feathering mask method w = Cv2Error.
Proof.
  intros Hp. unfold apply_feathering.
  now rewrite smooth_open_close_raises by auto.
Qed.

Lemma apply_feathering_has_pixel mask method w alpha :
  apply_feathering mask method w = Ok alpha -> has_pixel mask = true.
Proof.
  intros H. destruct (has_pixel mask) eqn:Hp; auto.
  rewrite apply_feathering_raises in H by auto. discriminate.
Qed.

Lemma astype_float32_pixel M i j :
  pixel (astype_float32 M) i j
  = option_map (fun b : bool => if b then 1%R else 0%R) (pixel M i j).
Proof. apply pixel_gmap. Qed.

Lemma apply_feathering_interior mask m w alpha p :
  apply_feathering mask (value m) w = Ok alpha ->
  interior (open_close mask 4) p ->
  pixel alpha (fst p) (snd p) = Some 1%R.
Proof.
  intros E Hp. pose proof (apply_feathering_has_pixel _ _ _ _ E) as HP.
  rewrite apply_feathering_value in E by exact HP. injection E as <-.
  destruct (profile m) as [g|].
  - now apply _feather_interior.
  - unfold interior in Hp. now rewrite astype_float32_pixel, Hp.
Qed.

(** With no pixel inside the band, [_feather] is the plain cast. *)
Lemma _feather_nonpositive_width M g w :
  (w <= 0)%R -> _feather M g w = astype_float32 M.
Proof.
  intros Hw. apply grid_ext.
  - unfold astype_float32. now rewrite _feather_shape, shape_gmap.
  - intros i j. unfold astype_float32. rewrite pixel_gmap.
    destruct (any M) eqn:Hany; [destruct (all M) eqn:Hall|].
    + unfold _feather. rewrite Hany, Hall. simpl. rewrite pixel_full_like.
      destruct (pixel M i j) as [b|] eqn:Hp; simpl; auto.
      now rewrite (@all_true_pixel M i j b Hall Hp).
    + rewrite _feather_pixel by auto.
      destruct (pixel M i j) as [[|]|]; simpl; auto.
      unfold feather_value. rewrite Rltb_false; auto.
      pose proof (sqrt_pos (IZR (nearest_sq (zero_coords (gnot M)) (i, j)))).
      lra.
    + unfold _feather. rewrite Hany. simpl. rewrite pixel_full_like.
      destruct (pixel M i j) as [b|] eqn:Hp; simpl; auto.
      now rewrite (@any_false_pixel M i j b Hany Hp).
Qed.

(** Degenerate masks. *)
Lemma no_interior_any M : (forall p, ~ interior M p) -> any M = false.
Proof.
  intros H. destruct (any M) eqn:E; auto.
  destruct (any_true_exists M E) as (i & j & Hij).
  destruct (H (i, j)). exact Hij.
Qed.

Lemma no_exterior_all M : (forall p, ~ exterior M p) -> all M = true.
Proof.
  intros H. destruct (all M) eqn:E; auto.
  destruct (all_false_exists M E) as (i & j & Hij).
  destruct (H (i, j)). exact Hij.
Qed.

Lemma astype_float32_empty M :
  any M = false -> astype_float32 M = full_like 0%R M.
Proof.
  intros Hany. apply grid_ext.
  - unfold astype_float32, full_like. now rewrite !shape_gmap.
  - intros i j. rewrite astype_float32_pixel, pixel_full_like.
    destruct (pixel M i j) as [b|] eqn:Hp; simpl; auto.
    now rewrite (@any_false_pixel M i j b Hany Hp).
Qed.

Lemma astype_float32_full M :
  all M = true -> astype_float32 M = full_like 1%R M.
Proof.
  intros Hall. apply grid_ext.
  - unfold astype_float32, full_like. now rewrite !shape_gmap.
  - intros i j. rewrite astype_float32_pixel, pixel_full_like.
    destruct (pixel M i j) as [b|] eqn:Hp; simpl; auto.
    now rewrite (@all_true_pixel M i j b Hall Hp).
Qed.

Lemma _feather_empty M g w : any M = false -> _feather M g w = full_like 0%R M.
Proof. intros H. unfold _feather. now rewrite H. Qed.

Lemma _feather_full M g w : all M = true -> _feather M g w = full_like 1%R M.
Proof.
  intros H. destruct (any M) eqn:Hany.
  - unfold _feather. now rewrite Hany, H.
  - rewrite _feather_empty by auto.
    rewrite <- astype_float32_empty by auto. now apply astype_float32_full.
Qed.

(** ** Concrete masks *)

Open Scope R_scope.

Lemma nearest_interiorb_sound M p q :
  nearest_interiorb M p q = true -> nearest_interior M p q.
Proof.
  unfold nearest_interiorb. cbv zeta. intros H.
  apply andb_true_iff in H as [Hex Hall].
  apply existsb_exists in Hex as (q0 & Hq0 & E).
  assert (q0 = q) as ->.
  { unfold coord_eqb in E. apply andb_true_iff in E as [E1 E2].
    apply Nat.eqb_eq in E1, E2. destruct q, q0; simpl in *. congruence. }
  split.
  - now apply interior_zero_coords.
  - intros q' Hq'. apply euclidean_le_sq. apply Z.leb_le.
    rewrite forallb_forall in Hall. apply Hall.
    now apply interior_zero_coords.
Qed.

Lemma sqrt_IZR_square k : (0 <= k)%Z -> sqrt (IZR (k * k)) = IZR k.
Proof. intros H. rewrite mult_IZR. apply sqrt_square. now apply IZR_le. Qed.

Lemma pixel_single_pixel_mask h w ci cj i j :
  (i < h)%nat -> (j < w)%nat ->
  pixel (single_pixel_mask h w ci cj) i j = Some (Nat.eqb i ci && Nat.eqb j cj).
Proof.
  intros Hi Hj. unfold pixel, single_pixel_mask.
  rewrite nth_error_map, nth_error_seq_0 by auto. cbn [option_map].
  now rewrite nth_error_map, nth_error_seq_0 by auto.
Qed.

(** The centre pixel of the 21 x 21 test mask is its only interior pixel. *)
Lemma single21_interior q :
  interior (single_pixel_mask 21 21 10 10) q -> q = (10%nat, 10%nat).
Proof.
  intros H. apply interior_zero_coords in H.
  assert (E : zero_coords (gnot (single_pixel_mask 21 21 10 10))
              = [(10%nat, 10%nat)]) by (vm_compute; reflexivity).
  rewrite E in H. destruct H as [H|[]]. now symmetry.
Qed.

Lemma single21_nearest p :
  nearest_interior (single_pixel_mask 21 21 10 10) p (10%nat, 10%nat).
Proof.
  split.
  - reflexivity.
  - intros q' Hq'. apply single21_interior in Hq'. subst. lra.
Qed.

(** Radius 0 makes the cleaning step the identity on that mask. *)
Lemma single21_clean_0 :
  open_close (single_pixel_mask 21 21 10 10) 0
  = single_pixel_mask 21 21 10 10.
Proof. vm_compute. reflexivity. Qed.

Lemma square_exterior_12_5 :
  exterior (open_close square_mask 4) (12%nat, 5%nat).
Proof. vm_compute. reflexivity. Qed.

Lemma square_exterior_12_0 :
  exterior (open_close square_mask 4) (12%nat, 0%nat).
Proof. vm_compute. reflexivity. Qed.

Lemma square_interior_12_10 :
  interior (open_close square_mask 4) (12%nat, 10%nat).
Proof. vm_compute. reflexivity. Qed.

Lemma square_nearest_12_5 :
  nearest_interior (open_close square_mask 4)
                   (12%nat, 5%nat) (12%nat, 10%nat).
Proof. apply nearest_interiorb_sound. vm_compute. reflexivity. Qed.

Lemma square_nearest_12_0 :
  nearest_interior (open_close square_mask 4)
                   (12%nat, 0%nat) (12%nat, 10%nat).
Proof. apply nearest_interiorb_sound. vm_compute. reflexivity. Qed.

Lemma euclidean_12_5 : euclidean (12%nat, 5%nat) (12%nat, 10%nat) = 5.
Proof.
  rewrite euclidean_sq_dist.
  change (sq_dist (12%nat, 5%nat) (12%nat, 10%nat)) with (5 * 5)%Z.
  apply sqrt_IZR_square. lia.
Qed.

Lemma euclidean_12_0 : euclidean (12%nat, 0%nat) (12%nat, 10%nat) = 10.
Proof.
  rewrite euclidean_sq_dist.
  change (sq_dist (12%nat, 0%nat) (12%nat, 10%nat)) with (10 * 10)%Z.
  apply sqrt_IZR_square. lia.
Qed.

(** * The claims *)

Lemma square_has_pixel : has_pixel square_mask = true.
Proof. vm_compute. reflexivity. Qed.

Lemma square_cleaned :
  smooth_open_close square_mask 4 = Returns (open_close square_mask 4).
Proof. apply smooth_open_close_returns; [lia|exact square_has_pixel]. Qed.

Lemma single21_cleaned_0 :
  smooth_open_close (single_pixel_mask 21 21 10 10) 0
  = Returns (single_pixel_mask 21 21 10 10).
Proof.
  rewrite smooth_open_close_returns; [|lia|vm_compute; reflexivity].
  now rewrite single21_clean_0.
Qed.

(** C1: for every mask and valid config with a method other than none, a
    pixel that is exterior in the cleaned mask and whose exact Euclidean
    distance D to the nearest interior pixel is below the width gets
    alpha = g(clamp(D / width, 0, 1)).  Scenario C: on the 21 x 21 mask with
    one true pixel at the centre, cleaned with radius 0, width 10 and the
    linear profile, every pixel at Euclidean distance 5 from the centre gets
    alpha within 1e-3 of 0.5. *)
Theorem C1_band_alpha :
  (forall mask cleaned m g w p q,
      profile m = Some g -> 0 < w ->
      smooth_open_close mask 4 = Returns cleaned ->
      exterior cleaned p ->
      nearest_interior cleaned p q ->
      euclidean p q < w ->
      exists alpha,
        apply_feathering mask (value m) w = Ok alpha /\
        pixel alpha (fst p) (snd p)
        = Some (g (clip (euclidean p q / w) 0 1)))
  /\
  (exists cleaned,
      smooth_open_close (single_pixel_mask 21 21 10 10) 0 = Returns cleaned /\
      forall i j,
        (i < 21)%nat -> (j < 21)%nat ->
        euclidean (i, j) (10%nat, 10%nat) = 5 ->
        exists a,
          pixel (feather_linear cleaned 10) i j = Some a /\
          Rabs (a - 0.5) <= 0.001).
Proof.
  split.
  - intros mask cleaned m g w p q Hg _ Hc Hp Hq Hd.
    apply smooth_open_close_inv in Hc as (_ & HP & ->).
    rewrite apply_feathering_value by exact HP. rewrite Hg.
    eexists. split; [reflexivity|].
    now apply _feather_band.
  - exists (single_pixel_mask 21 21 10 10).
    split; [exact single21_cleaned_0|].
    intros i j Hi Hj Hd.
    assert (Hp : exterior (single_pixel_mask 21 21 10 10) (i, j)).
    { unfold exterior. simpl. rewrite pixel_single_pixel_mask by auto.
      destruct (Nat.eqb_spec i 10) as [->|]; auto.
      destruct (Nat.eqb_spec j 10) as [->|]; auto.
      exfalso. unfold euclidean in Hd. simpl fst in Hd. simpl snd in Hd.
      replace ((INR 10 - INR 10) ^ 2 + (INR 10 - INR 10) ^ 2) with 0 in Hd
        by ring.
      rewrite sqrt_0 in Hd. lra. }
    pose proof (@_feather_band (single_pixel_mask 21 21 10 10) g_linear 10
                  (i, j) (10%nat, 10%nat) Hp (single21_nearest (i, j))) as H.
    rewrite Hd in H. simpl fst in H. simpl snd in H.
    unfold feather_linear. rewrite H by lra.
    eexists. split; [reflexivity|].
    rewrite clip_id by lra. unfold g_linear.
    replace (1 - 5 / 10 - 0.5) with 0 by lra.
    rewrite Rabs_R0. lra.
Qed.

Lemma euclidean_13_14 : euclidean (13%nat, 14%nat) (10%nat, 10%nat) = 5.
Proof.
  rewrite euclidean_sq_dist.
  change (sq_dist (13%nat, 14%nat) (10%nat, 10%nat)) with (5 * 5)%Z.
  apply sqrt_IZR_square. lia.
Qed.

Lemma C1_band_alpha_witness :
  (exists alpha,
      apply_feathering square_mask (value LINEAR) 10 = Ok alpha /\
      pixel alpha 12 5
      = Some (g_linear (clip (euclidean (12%nat, 5%nat) (12%nat, 10%nat) / 10)
                             0 1)))
  /\
  (exists cleaned a,
      smooth_open_close (single_pixel_mask 21 21 10 10) 0 = Returns cleaned /\
      pixel (feather_linear cleaned 10) 13 14 = Some a /\
      Rabs (a - 0.5) <= 0.001).
Proof.
  split.
  - apply (proj1 C1_band_alpha square_mask (open_close square_mask 4)
                 LINEAR g_linear 10 (12%nat, 5%nat) (12%nat, 10%nat)).
    + reflexivity.
    + lra.
    + exact square_cleaned.
    + exact square_exterior_12_5.
    + exact square_nearest_12_5.
    + rewrite euclidean_12_5. lra.
  - destruct (proj2 C1_band_alpha) as (cleaned & E & H).
    destruct (H 13%nat 14%nat) as (a & Ha & Hr).
    + lia.
    + lia.
    + exact euclidean_13_14.
    + exists cleaned, a. split; [exact E|]. split; [exact Ha|exact Hr].
Defined.

(** C2: for every mask with at least one pixel and every method (sigmoid
    included), a pixel that is interior in the cleaned mask gets alpha = 1.0
    exactly, and an exterior pixel whose distance D to the nearest interior
    pixel is at least the width gets alpha = 0.0 exactly, whatever the
    profile's endpoint values. *)
Theorem C2_interior_one_far_zero :
  (forall t, 0 < g_sigmoid t < 1) /\
  forall mask m w,
    has_pixel mask = true ->
    exists cleaned alpha,
      smooth_open_close mask 4 = Returns cleaned /\
      apply_feathering mask (value m) w = Ok alpha /\
      forall p,
        (interior cleaned p ->
         pixel alpha (fst p) (snd p) = Some 1) /\
        (forall q,
            exterior cleaned p ->
            nearest_interior cleaned p q ->
            w <= euclidean p q ->
            pixel alpha (fst p) (snd p) = Some 0).
Proof.
  split; [exact g_sigmoid_open_range|].
  intros mask m w HP. exists (open_close mask 4).
  rewrite apply_feathering_value by exact HP.
  eexists. split; [apply smooth_open_close_returns; [lia|exact HP]|].
  split; [reflexivity|].
  intros p. destruct (profile m) as [g|]; split.
  - apply _feather_interior.
  - intros q. apply _feather_far.
  - unfold interior. intros H. now rewrite astype_float32_pixel, H.
  - unfold exterior. intros q H _ _. now rewrite astype_float32_pixel, H.
Qed.

Lemma C2_interior_one_far_zero_witness :
  exists alpha,
    apply_feathering square_mask (value SIGMOID) 10 = Ok alpha /\
    pixel alpha 12 10 = Some 1 /\
    pixel alpha 12 0 = Some 0.
Proof.
  destruct (proj2 C2_interior_one_far_zero square_mask SIGMOID 10
                  square_has_pixel)
    as (cleaned & alpha & Ec & E & H).
  assert (cleaned = open_close square_mask 4) as ->.
  { pose proof square_cleaned as E'. congruence. }
  exists alpha. split; [exact E|].
  split.
  - apply (proj1 (H (12%nat, 10%nat))). exact square_interior_12_10.
  - apply (proj2 (H (12%nat, 0%nat)) (12%nat, 10%nat)).
    + exact square_exterior_12_0.
    + exact square_nearest_12_0.
    + rewrite euclidean_12_0. lra.
Defined.

Lemma const_true_clean :
  open_close (const_mask 10 10 true) 4 = const_mask 10 10 true.
Proof. vm_compute. reflexivity. Qed.

Lemma const_false_clean :
  open_close (const_mask 10 10 false) 4 = const_mask 10 10 false.
Proof. vm_compute. reflexivity. Qed.

Lemma const_has_pixel b : has_pixel (const_mask 10 10 b) = true.
Proof. reflexivity. Qed.

(** C3, as stated: a non-positive width makes [apply_feathering] fail.  It
    does not: on the 10 x 10 all-true mask with the linear method and
    width 0 the call returns the all-one matte and raises nothing. *)
Lemma C3_nonpositive_width_counterexample :
  (0 <= 0)%R /\
  apply_feathering (const_mask 10 10 true) (value LINEAR) 0
  = Ok (repeat (repeat 1 10) 10) /\
  ~ (exists msg,
        apply_feathering (const_mask 10 10 true) (value LINEAR) 0
        = ValueError msg).
Proof.
  assert (E : apply_feathering (const_mask 10 10 true) (value LINEAR) 0
              = Ok (repeat (repeat 1 10) 10)).
  { rewrite apply_feathering_value by apply const_has_pixel. simpl profile.
    rewrite const_true_clean. reflexivity. }
  split; [lra|]. split; [exact E|].
  intros (msg & H). rewrite E in H. discriminate.
Qed.

(** C3, amended: [apply_feathering] never checks the width.  For every
    mask with at least one pixel and every method, a width <= 0 raises no
    error and yields the cleaned mask cast to {0.0, 1.0}: no pixel lies
    inside the band. *)
Theorem C3_nonpositive_width_returns_cast :
  forall mask m w,
    w <= 0 ->
    has_pixel mask = true ->
    exists cleaned,
      smooth_open_close mask 4 = Returns cleaned /\
      apply_feathering mask (value m) w = Ok (astype_float32 cleaned).
Proof.
  intros mask m w Hw HP. exists (open_close mask 4).
  split; [apply smooth_open_close_returns; [lia|exact HP]|].
  rewrite apply_feathering_value by exact HP.
  destruct (profile m); auto.
  now rewrite _feather_nonpositive_width.
Qed.

Lemma C3_nonpositive_width_returns_cast_witness :
  exists cleaned,
    smooth_open_close square_mask 4 = Returns cleaned /\
    apply_feathering square_mask (value SIGMOID) (-1)
    = Ok (astype_float32 cleaned).
Proof.
  apply (C3_nonpositive_width_returns_cast square_mask SIGMOID (-1)).
  - lra.
  - exact square_has_pixel.
Defined.

(** C4: for every mask with at least one pixel and every valid config the
    matte returned by [apply_feathering] has the dimensions of the input mask
    and all its values lie in [0, 1]. *)
Theorem C4_shape_and_range :
  forall mask m w,
    has_pixel mask = true ->
    exists alpha,
      apply_feathering mask (value m) w = Ok alpha /\
      shape alpha = shape mask /\
      forall i j v, pixel alpha i j = Some v -> 0 <= v <= 1.
Proof.
  intros mask m w HP. rewrite apply_feathering_value by exact HP.
  eexists. split; [reflexivity|].
  destruct (profile m) as [g|] eqn:Hg.
  - split.
    + now rewrite _feather_shape, shape_open_close.
    + intros i j v Hv.
      apply _feather_values in Hv as [->|[->|(t & Ht & ->)]]; try lra.
      eapply profile_range; eauto.
  - split.
    + unfold astype_float32.
      now rewrite shape_gmap, shape_open_close.
    + intros i j v. rewrite astype_float32_pixel.
      destruct (pixel _ i j) as [[|]|]; simpl; intros [= <-]; lra.
Qed.

Lemma C4_shape_and_range_witness :
  exists alpha,
    apply_feathering square_mask (value EASE_OUT_POWER) 10 = Ok alpha /\
    shape alpha = shape square_mask /\
    0 <= 1 <= 1.
Proof.
  destruct (C4_shape_and_range square_mask EASE_OUT_POWER 10 square_has_pixel)
    as (alpha & E & Hs & Hr).
  exists alpha. split; [exact E|]. split; [exact Hs|].
  apply (Hr 12%nat 10%nat 1).
  exact (apply_feathering_interior square_mask EASE_OUT_POWER 10 alpha
           (12%nat, 10%nat) E square_interior_12_10).
Defined.

(** C5: with method none the engine returns, for every mask with at least
    one pixel, the cleaned mask cast pixel for pixel to {0.0, 1.0}; the
    result involves neither the distance transform nor a profile, and does
    not depend on the width. *)
Theorem C5_none_is_cast :
  forall mask w,
    has_pixel mask = true ->
    exists cleaned,
      smooth_open_close mask 4 = Returns cleaned /\
      apply_feathering mask (value NONE) w = Ok (astype_float32 cleaned) /\
      forall i j,
        pixel (astype_float32 cleaned) i j
        = match pixel cleaned i j with
          | Some true => Some 1
          | Some false => Some 0
          | None => None
          end.
Proof.
  intros mask w HP. exists (open_close mask 4).
  split; [apply smooth_open_close_returns; [lia|exact HP]|].
  split; [now rewrite apply_feathering_value by exact HP|].
  intros i j. rewrite astype_float32_pixel.
  now destruct (pixel _ i j) as [[|]|].
Qed.

Lemma C5_none_is_cast_witness :
  exists cleaned,
    smooth_open_close square_mask 4 = Returns cleaned /\
    apply_feathering square_mask (value NONE) 10
    = Ok (astype_float32 cleaned) /\
    pixel (astype_float32 cleaned) 12 10
    = match pixel cleaned 12 10 with
      | Some true => Some 1
      | Some false => Some 0
      | None => None
      end.
Proof.
  destruct (C5_none_is_cast square_mask 10 square_has_pixel)
    as (cleaned & Ec & E & H).
  exists cleaned. split; [exact Ec|]. split; [exact E|].
  exact (H 12%nat 10%nat).
Defined.

(** C6: each of the six profiles (linear, exponential, cosine, sigmoid,
    ease_out_power, ease_out_exp) is non-increasing on [0, 1]. *)
Theorem C6_profiles_non_increasing :
  forall m g t1 t2,
    profile m = Some g ->
    0 <= t1 -> t1 < t2 -> t2 <= 1 ->
    g t2 <= g t1.
Proof.
  intros m g t1 t2 Hg H0 H12 H1.
  assert (H : t1 <= t2) by lra.
  destruct m; simpl in Hg; inversion Hg; subst;
    auto using g_linear_decr, g_exp_decr, g_cos_decr, g_sigmoid_decr,
               g_ease_out_power_decr, g_ease_out_exp_decr.
Qed.

Lemma C6_profiles_non_increasing_witness :
  g_sigmoid 0.75 <= g_sigmoid 0.25.
Proof.
  apply (C6_profiles_non_increasing SIGMOID g_sigmoid 0.25 0.75).
  - reflexivity.
  - lra.
  - lra.
  - lra.
Defined.

Lemma const_false_no_interior p :
  ~ interior (open_close (const_mask 10 10 false) 4) p.
Proof.
  rewrite const_false_clean. intros H.
  apply interior_any in H. vm_compute in H. discriminate.
Qed.

Lemma const_true_no_exterior p :
  ~ exterior (open_close (const_mask 10 10 true) 4) p.
Proof.
  rewrite const_true_clean. intros H.
  apply exterior_all in H. vm_compute in H. discriminate.
Qed.

Lemma apply_feathering_empty mask m w :
  has_pixel mask = true ->
  any (open_close mask 4) = false ->
  apply_feathering mask (value m) w = Ok (full_like 0 mask).
Proof.
  intros HP H. rewrite apply_feathering_value by exact HP. f_equal.
  rewrite (full_like_shape 0 mask (open_close mask 4))
    by (now rewrite shape_open_close).
  destruct (profile m).
  - now apply _feather_empty.
  - now apply astype_float32_empty.
Qed.

Lemma apply_feathering_full mask m w :
  has_pixel mask = true ->
  all (open_close mask 4) = true ->
  apply_feathering mask (value m) w = Ok (full_like 1 mask).
Proof.
  intros HP H. rewrite apply_feathering_value by exact HP. f_equal.
  rewrite (full_like_shape 1 mask (open_close mask 4))
    by (now rewrite shape_open_close).
  destruct (profile m).
  - now apply _feather_full.
  - now apply astype_float32_full.
Qed.

(** C7: for every mask with at least one pixel and every method, a cleaned
    mask without true pixels gives the all-zero matte of the input's shape
    and an entirely true cleaned mask gives the all-one matte.  Scenario A:
    the 10 x 10 all-false mask, width 10, linear, gives the 10 x 10 zero
    matte.  Scenario B: the 10 x 10 all-true mask gives the 10 x 10 all-one
    matte for any method. *)
Theorem C7_degenerate_masks :
  (forall mask m w,
      has_pixel mask = true ->
      exists cleaned,
        smooth_open_close mask 4 = Returns cleaned /\
        ((forall p, ~ interior cleaned p) ->
         apply_feathering mask (value m) w = Ok (full_like 0 mask)) /\
        ((forall p, ~ exterior cleaned p) ->
         apply_feathering mask (value m) w = Ok (full_like 1 mask)))
  /\
  apply_feathering (const_mask 10 10 false) (value LINEAR) 10
  = Ok (repeat (repeat 0 10) 10)
  /\
  (forall m w,
      apply_feathering (const_mask 10 10 true) (value m) w
      = Ok (repeat (repeat 1 10) 10)).
Proof.
  split; [|split].
  - intros mask m w HP. exists (open_close mask 4).
    split; [apply smooth_open_close_returns; [lia|exact HP]|].
    split; intros H.
    + apply apply_feathering_empty; [exact HP|].
      now apply no_interior_any.
    + apply apply_feathering_full; [exact HP|].
      now apply no_exterior_all.
  - rewrite apply_feathering_empty; [reflexivity|apply const_has_pixel|].
    apply no_interior_any. exact const_false_no_interior.
  - intros m w. rewrite apply_feathering_full;
      [reflexivity|apply const_has_pixel|].
    apply no_exterior_all. exact const_true_no_exterior.
Qed.

Lemma C7_degenerate_masks_witness :
  exists cleaned,
    smooth_open_close (const_mask 10 10 false) 4 = Returns cleaned /\
    apply_feathering (const_mask 10 10 false) (value COSINE) 3
    = Ok (full_like 0 (const_mask 10 10 false)).
Proof.
  destruct (proj1 C7_degenerate_masks (const_mask 10 10 false) COSINE 3
                  (const_has_pixel false))
    as (cleaned & Ec & H0 & _).
  exists cleaned. split; [exact Ec|].
  apply H0.
  assert (cleaned = open_close (const_mask 10 10 false) 4) as ->.
  { apply (smooth_open_close_inv _ _ _ Ec). }
  exact const_false_no_interior.
Defined.

(** ** Erosion and dilation, pixel by pixel *)

Open Scope Z_scope.

Lemma in_neighbourhood img offs i j v :
  In v (neighbourhood img offs i j) <->
  exists dy dx, In (dy, dx) offs /\
                pixelZ img (Z.of_nat i + dy) (Z.of_nat j + dx) = Some v.
Proof.
  unfold neighbourhood. rewrite in_concat. split.
  - intros (l & Hl & Hv). apply in_map_iff in Hl as ([dy dx] & <- & Hd).
    simpl in Hv. exists dy, dx. split; auto.
    destruct (pixelZ img _ _); simpl in Hv; [|contradiction].
    destruct Hv as [->|[]]. reflexivity.
  - intros (dy & dx & Hd & Hv). exists [v]. split; [|now left].
    apply in_map_iff. exists (dy, dx). simpl. now rewrite Hv.
Qed.

Lemma fold_min_pos l : 0 < fold_right Z.min 255 l <-> forall v, In v l -> 0 < v.
Proof.
  induction l as [|x l IH]; simpl.
  - split; [intros _ v []|lia].
  - rewrite Z.min_glb_lt_iff, IH. split.
    + intros [Hx Hl] v [<-|Hv]; auto.
    + intros H. split; auto.
Qed.

Lemma fold_max_pos l : 0 < fold_right Z.max 0 l <-> exists v, In v l /\ 0 < v.
Proof.
  induction l as [|x l IH]; simpl.
  - split; [lia|now intros (v & [] & _)].
  - rewrite Z.max_lt_iff, IH. split.
    + intros [Hx|(v & Hv & Hp)]; eauto.
    + intros (v & [<-|Hv] & Hp); eauto.
Qed.

(** Erosion keeps a pixel exactly when the element fits there. *)
Lemma erode_pixel img se i j :
  pixel (_to_bool (erode img se)) i j = Some true <->
  pixel img i j <> None /\ fits img se i j.
Proof.
  unfold _to_bool, erode. cbv zeta. rewrite pixel_gmap, pixel_gimap.
  destruct (pixel img i j) as [x|]; simpl; [|split; [discriminate|tauto]].
  split.
  - intros [= H]. apply Z.ltb_lt in H. split; [discriminate|].
    intros dy dx v Hc Hv. apply (proj1 (fold_min_pos _) H).
    apply in_neighbourhood. eauto.
  - intros [_ H]. f_equal. apply Z.ltb_lt, fold_min_pos.
    intros v Hv. apply in_neighbourhood in Hv as (dy & dx & Hd & Hv).
    eapply H; eauto.
Qed.

(** Dilation sets a pixel exactly when the element hits the image there. *)
Lemma dilate_pixel img se i j :
  pixel (_to_bool (dilate img se)) i j = Some true <->
  pixel img i j <> None /\ hits img se i j.
Proof.
  unfold _to_bool, dilate. cbv zeta. rewrite pixel_gmap, pixel_gimap.
  destruct (pixel img i j) as [x|]; simpl; [|split; [discriminate|tauto]].
  split.
  - intros [= H]. apply Z.ltb_lt, fold_max_pos in H as (v & Hv & Hp).
    split; [discriminate|].
    apply in_neighbourhood in Hv as (dy & dx & Hd & Hv).
    exists dy, dx, v. auto.
  - intros [_ (dy & dx & v & Hc & Hv & Hp)]. f_equal.
    apply Z.ltb_lt, fold_max_pos. exists v. split; auto.
    apply in_neighbourhood. eauto.
Qed.

(** The disk kernel: a (2r+1) x (2r+1) array whose ones lie between the
    closed disk of radius r and the disk of radius r + 1/2, mirror-symmetric
    about both axes. *)
Lemma disk_kernel_disk r :
  0 <= r ->
  shape (disk_kernel r)
  = repeat (Z.to_nat (2 * r + 1)) (Z.to_nat (2 * r + 1)) /\
  (forall dy dx,
      dy * dy + dx * dx <= r * r -> covers (disk_kernel r) dy dx) /\
  (forall dy dx,
      covers (disk_kernel r) dy dx ->
      Z.abs dy <= r /\ Z.abs dx <= r /\ dy * dy + dx * dx <= r * r + r /\
      covers (disk_kernel r) (- dy) dx /\ covers (disk_kernel r) dy (- dx)).
Proof.
  intros Hr. split; [now apply disk_kernel_shape|]. split.
  - intros dy dx H. apply disk_kernel_offsets; auto. split.
    + nia.
    + now apply ellipse_half_width_lower.
  - intros dy dx H. apply disk_kernel_offsets in H as [Hdy Hdx]; auto.
    pose proof (ellipse_half_width_le r dy Hr Hdy).
    split; [auto|]. split; [lia|]. split.
    + now apply ellipse_half_width_upper.
    + split; apply disk_kernel_offsets; auto.
      * split; [lia|]. unfold ellipse_half_width in *.
        now replace (- dy * - dy) with (dy * dy) by ring.
      * split; [lia|]. lia.
Qed.

Lemma block_kept :
  any (open_close block_mask 2) = true /\ any (open_close block_mask 4) = false.
Proof. split; vm_compute; reflexivity. Qed.

Lemma block_has_pixel : has_pixel block_mask = true.
Proof. vm_compute. reflexivity. Qed.

(** C8, as stated: the cleaning radius defaults to r = 4.  It does not: the
    keyword default of [smooth_open_close] is r = 2.  On the 15 x 15 mask
    with a 5 x 5 block, the call that leaves the radius out keeps pixels of
    the block, which the cleaning with radius 4 removes altogether. *)
Lemma C8_default_radius_counterexample :
  smooth_open_close_default_r = 2 /\
  smooth_open_close_default_r <> 4 /\
  exists kept cleaned,
    smooth_open_close_default block_mask = Returns kept /\
    smooth_open_close block_mask 4 = Returns cleaned /\
    any kept = true /\
    any cleaned = false.
Proof.
  split; [reflexivity|]. split; [discriminate|].
  exists (open_close block_mask 2), (open_close block_mask 4).
  split; [|split].
  - unfold smooth_open_close_default, smooth_open_close_default_r.
    apply smooth_open_close_returns; [lia|exact block_has_pixel].
  - apply smooth_open_close_returns; [lia|exact block_has_pixel].
  - exact block_kept.
Qed.

(** C8, amended: for a radius r >= 0 and a mask with at least one pixel the
    cleaner applies an opening (erosion, then dilation) followed by a closing
    (dilation, then erosion), in that order, both with the same disk-like
    structuring element inscribed in the (2r+1) x (2r+1) square: the element
    holds every offset within distance r of the centre, none beyond
    sqrt(r^2 + r), and is mirror-symmetric about both axes.  The order
    matters (two stripes one pixel apart vanish, while closing first would
    merge them).  The radius of [smooth_open_close] defaults to 2;
    [apply_feathering] always passes radius 4, whatever the width, and an
    error of the cleaning step is the error of [apply_feathering]. *)
Theorem C8_clean_open_then_close :
  (forall mask r,
      0 <= r -> has_pixel mask = true ->
      exists se opened closed,
        _disk_kernel r = Returns se /\
        morphologyEx (_to_u8 mask) MORPH_OPEN se = Returns opened /\
        opened = dilate (erode (_to_u8 mask) se) se /\
        morphologyEx opened MORPH_CLOSE se = Returns closed /\
        closed = erode (dilate opened se) se /\
        smooth_open_close mask r = Returns (_to_bool closed))
  /\
  (forall r se img i j,
      _disk_kernel r = Returns se ->
      (pixel (_to_bool (erode img se)) i j = Some true <->
       pixel img i j <> None /\ fits img se i j) /\
      (pixel (_to_bool (dilate img se)) i j = Some true <->
       pixel img i j <> None /\ hits img se i j))
  /\
  (forall r,
      0 <= r ->
      exists se,
        _disk_kernel r = Returns se /\
        shape se = repeat (Z.to_nat (2 * r + 1)) (Z.to_nat (2 * r + 1)) /\
        (forall dy dx, dy * dy + dx * dx <= r * r -> covers se dy dx) /\
        (forall dy dx,
            covers se dy dx ->
            Z.abs dy <= r /\ Z.abs dx <= r /\
            dy * dy + dx * dx <= r * r + r /\
            covers se (- dy) dx /\ covers se dy (- dx)))
  /\
  (smooth_open_close stripes_mask 1 = Returns (const_mask 7 7 false) /\
   (se <- _disk_kernel 1 ;;
    closed <- morphologyEx (_to_u8 stripes_mask) MORPH_CLOSE se ;;
    opened <- morphologyEx closed MORPH_OPEN se ;;
    Returns (_to_bool opened))
   = Returns (rect_mask 7 7 0 6 2 4))
  /\
  (forall mask, smooth_open_close_default mask = smooth_open_close mask 2)
  /\
  (forall mask m w,
      has_pixel mask = true ->
      exists cleaned,
        smooth_open_close mask 4 = Returns cleaned /\
        apply_feathering mask (value m) w
        = Ok (match profile m with
              | None => astype_float32 cleaned
              | Some g => _feather cleaned g w
              end))
  /\
  (forall mask method w,
      smooth_open_close mask 4 = Raises ->
      apply_feathering mask method w = Cv2Error).
Proof.
  split.
  { intros mask r Hr HP.
    exists (disk_kernel r),
           (morphology (_to_u8 mask) MORPH_OPEN (disk_kernel r)),
           (morphology (morphology (_to_u8 mask) MORPH_OPEN (disk_kernel r))
                       MORPH_CLOSE (disk_kernel r)).
    split; [now apply disk_kernel_returns|].
    split; [apply morphologyEx_returns; now rewrite has_pixel_to_u8|].
    split; [reflexivity|].
    split.
    { apply morphologyEx_returns.
      rewrite (has_pixel_shape _ (_to_u8 mask)) by apply shape_morphology.
      now rewrite has_pixel_to_u8. }
    split; [reflexivity|].
    now apply smooth_open_close_returns. }
  split; [intros; split; [apply erode_pixel|apply dilate_pixel]|].
  split.
  { intros r Hr. exists (disk_kernel r).
    split; [now apply disk_kernel_returns|]. now apply disk_kernel_disk. }
  split; [split; vm_compute; reflexivity|].
  split; [reflexivity|].
  split.
  { intros mask m w HP. exists (open_close mask 4).
    split; [apply smooth_open_close_returns; [lia|exact HP]|].
    now apply apply_feathering_value. }
  intros mask method w H. unfold apply_feathering. now rewrite H.
Qed.

Lemma C8_clean_open_then_close_witness :
  exists se,
    _disk_kernel 4 = Returns se /\
    shape se = repeat 9%nat 9 /\
    covers se 3 2 /\
    (Z.abs 1 <= 4 /\ Z.abs 4 <= 4 /\ 1 * 1 + 4 * 4 <= 4 * 4 + 4 /\
     covers se (- (1)) 4 /\ covers se 1 (- (4))).
Proof.
  destruct (proj1 (proj2 (proj2 C8_clean_open_then_close)) 4 ltac:(lia))
    as (se & E & Hs & Hin & Hout).
  exists se. split; [exact E|]. split; [exact Hs|]. split.
  - apply (Hin 3 2). lia.
  - apply (Hout 1 4).
    assert (se = disk_kernel 4) as ->.
    { pose proof (disk_kernel_returns 4 ltac:(lia)) as E'. congruence. }
    vm_compute. tauto.
Defined.

Open Scope R_scope.

Lemma g_exp_above t : t < 1 -> 0.01 < g_exp t.
Proof.
  intros H. rewrite <- g_exp_1. unfold g_exp.
  apply exp_increasing. pose proof k_decay_pos. nra.
Qed.

Lemma apply_feathering_far mask m w alpha p q :
  apply_feathering mask (value m) w = Ok alpha ->
  exterior (open_close mask 4) p ->
  nearest_interior (open_close mask 4) p q ->
  w <= euclidean p q ->
  pixel alpha (fst p) (snd p) = Some 0.
Proof.
  intros E Hp Hq Hd. pose proof (apply_feathering_has_pixel _ _ _ _ E) as HP.
  rewrite apply_feathering_value in E by exact HP. injection E as <-.
  destruct (profile m) as [g|].
  - now apply _feather_far with (q := q).
  - unfold exterior in Hp. now rewrite astype_float32_pixel, Hp.
Qed.

(** C9, as stated: with the exponential method a pixel at distance equal
    to the width (t = 1) gets alpha within 1e-3 of 0.01.  It does not: after
    cleaning [square_mask], pixel (12, 0) is exterior, its nearest interior
    pixel (12, 10) is at distance 10, and with width 10 it gets alpha 0. *)
Lemma C9_alpha_at_width_counterexample :
  exists cleaned alpha,
    smooth_open_close square_mask 4 = Returns cleaned /\
    apply_feathering square_mask (value EXPONENTIAL) 10 = Ok alpha /\
    exterior cleaned (12%nat, 0%nat) /\
    nearest_interior cleaned (12%nat, 0%nat) (12%nat, 10%nat) /\
    euclidean (12%nat, 0%nat) (12%nat, 10%nat) / 10 = 1 /\
    pixel alpha 12 0 = Some 0 /\
    ~ Rabs (0 - 0.01) <= 0.001.
Proof.
  exists (open_close square_mask 4).
  destruct (apply_feathering square_mask (value EXPONENTIAL) 10)
    as [alpha|msg|] eqn:E.
  - exists alpha. split; [exact square_cleaned|]. split; [reflexivity|].
    split; [exact square_exterior_12_0|].
    split; [exact square_nearest_12_0|].
    split; [rewrite euclidean_12_0; lra|]. split.
    + apply (apply_feathering_far square_mask EXPONENTIAL 10 alpha
               (12%nat, 0%nat) (12%nat, 10%nat) E
               square_exterior_12_0 square_nearest_12_0).
      rewrite euclidean_12_0. lra.
    + intros H. unfold Rabs in H.
      destruct (Rcase_abs (0 - 0.01)); lra.
  - rewrite apply_feathering_value in E by exact square_has_pixel.
    discriminate.
  - rewrite apply_feathering_value in E by exact square_has_pixel.
    discriminate.
Qed.

(** C9, amended: the exponential profile is g(t) = exp(-k t) with
    k = ln(100), so g(1) = 0.01 (within 1e-3).  In the matte the profile is
    applied only where D < width, where alpha = g(D / width) stays above 0.01;
    a pixel at distance exactly equal to the width is outside the band and
    gets alpha = 0.0. *)
Theorem C9_exponential_profile :
  (forall t, g_exp t = exp (- ln 100 * t)) /\
  Rabs (g_exp 1 - 0.01) <= 0.001 /\
  (forall mask cleaned w p q,
      smooth_open_close mask 4 = Returns cleaned ->
      exterior cleaned p ->
      nearest_interior cleaned p q ->
      exists alpha,
        apply_feathering mask (value EXPONENTIAL) w = Ok alpha /\
        (euclidean p q < w ->
         pixel alpha (fst p) (snd p) = Some (g_exp (euclidean p q / w)) /\
         0.01 < g_exp (euclidean p q / w)) /\
        (euclidean p q = w -> pixel alpha (fst p) (snd p) = Some 0)).
Proof.
  split; [reflexivity|]. split.
  - rewrite g_exp_1. replace (0.01 - 0.01) with 0 by lra.
    rewrite Rabs_R0. lra.
  - intros mask cleaned w p q Hc Hp Hq.
    apply smooth_open_close_inv in Hc as (_ & HP & ->).
    rewrite apply_feathering_value by exact HP. simpl profile.
    eexists. split; [reflexivity|]. split.
    + intros Hd. pose proof (euclidean_nonneg p q) as H0.
      assert (Ht : 0 <= euclidean p q / w < 1).
      { split.
        - apply Rmult_le_pos; auto. left. apply Rinv_0_lt_compat. lra.
        - apply Rmult_lt_reg_r with w; [lra|].
          unfold Rdiv. rewrite Rmult_assoc, Rinv_l by lra. lra. }
      split.
      * rewrite (@_feather_band _ g_exp w p q Hp Hq Hd).
        now rewrite clip_id by lra.
      * apply g_exp_above. lra.
    + intros Hd. apply _feather_far with (q := q); auto. lra.
Qed.

Lemma C9_exponential_profile_witness :
  exists alpha,
    apply_feathering square_mask (value EXPONENTIAL) 10 = Ok alpha /\
    pixel alpha 12 5
    = Some (g_exp (euclidean (12%nat, 5%nat) (12%nat, 10%nat) / 10)) /\
    0.01 < g_exp (euclidean (12%nat, 5%nat) (12%nat, 10%nat) / 10).
Proof.
  destruct (proj2 (proj2 C9_exponential_profile) square_mask
                  (open_close square_mask 4) 10
                  (12%nat, 5%nat) (12%nat, 10%nat)
                  square_cleaned square_exterior_12_5 square_nearest_12_5)
    as (alpha & E & Hband & _).
  exists alpha. split; [exact E|].
  apply Hband. rewrite euclidean_12_5. lra.
Defined.

Lemma single21_has_pixel : has_pixel (single_pixel_mask 21 21 10 10) = true.
Proof. vm_compute. reflexivity. Qed.

Lemma single21_opened_empty :
  any (_to_bool (morphology (_to_u8 (single_pixel_mask 21 21 10 10))
                              MORPH_OPEN (disk_kernel 4))) = false.
Proof. vm_compute. reflexivity. Qed.

Lemma single21_cleaned_empty :
  any (open_close (single_pixel_mask 21 21 10 10) 4) = false.
Proof. vm_compute. reflexivity. Qed.

(** C10: some non-empty mask (a 21 x 21 grid with one true pixel) is
    turned into the all-zero matte by [apply_feathering] for every method and
    every width: the radius-4 opening removes the pixel, the cleaned mask is
    empty, and no error is raised. *)
Theorem C10_single_pixel_vanishes :
  exists mask,
    interior mask (10%nat, 10%nat) /\
    (exists se opened,
        _disk_kernel 4 = Returns se /\
        morphologyEx (_to_u8 mask) MORPH_OPEN se = Returns opened /\
        any (_to_bool opened) = false) /\
    (exists cleaned,
        smooth_open_close mask 4 = Returns cleaned /\
        any cleaned = false) /\
    forall m w, apply_feathering mask (value m) w = Ok (full_like 0 mask).
Proof.
  exists (single_pixel_mask 21 21 10 10).
  split; [reflexivity|].
  split.
  { exists (disk_kernel 4),
           (morphology (_to_u8 (single_pixel_mask 21 21 10 10))
                       MORPH_OPEN (disk_kernel 4)).
    split; [apply disk_kernel_returns; lia|].
    split; [|exact single21_opened_empty].
    apply morphologyEx_returns. rewrite has_pixel_to_u8.
    exact single21_has_pixel. }
  split.
  { exists (open_close (single_pixel_mask 21 21 10 10) 4).
    split; [|exact single21_cleaned_empty].
    apply smooth_open_close_returns; [lia|exact single21_has_pixel]. }
  intros m w. apply apply_feathering_empty.
  - exact single21_has_pixel.
  - exact single21_cleaned_empty.
Qed.

(** * Further properties of the cleaning step *)

Open Scope Z_scope.

Lemma pixelZ_nat {A} (g : grid A) i j :
  pixelZ g (Z.of_nat i) (Z.of_nat j) = pixel g i j.
Proof.
  unfold pixelZ.
  destruct (Z.ltb_spec (Z.of_nat i) 0); [lia|].
  destruct (Z.ltb_spec (Z.of_nat j) 0); [lia|].
  simpl. now rewrite !Nat2Z.id.
Qed.

Lemma pixelZ_gimap {A B} (f : nat -> nat -> A -> B) g y x :
  pixelZ (gimap f g) y x
  = option_map (f (Z.to_nat y) (Z.to_nat x)) (pixelZ g y x).
Proof.
  unfold pixelZ. destruct ((y <? 0) || (x <? 0)); auto. apply pixel_gimap.
Qed.

Lemma pixelZ_gmap {A B} (f : A -> B) g y x :
  pixelZ (gmap f g) y x = option_map f (pixelZ g y x).
Proof.
  unfold pixelZ. destruct ((y <? 0) || (x <? 0)); auto. apply pixel_gmap.
Qed.

Lemma pixelZ_nonneg {A} (g : grid A) y x :
  pixelZ g y x <> None -> 0 <= y /\ 0 <= x.
Proof.
  unfold pixelZ.
  destruct (Z.ltb_spec y 0); simpl; [congruence|].
  destruct (Z.ltb_spec x 0); simpl; [congruence|]. lia.
Qed.

Lemma lit_inside img y x : lit img y x -> inside img y x.
Proof. intros (v & E & _). unfold inside. congruence. Qed.

Lemma inside_erode img se y x : inside (erode img se) y x <-> inside img y x.
Proof.
  unfold inside, erode. cbv zeta. rewrite pixelZ_gimap.
  destruct (pixelZ img y x); simpl; split; congruence.
Qed.

Lemma inside_dilate img se y x : inside (dilate img se) y x <-> inside img y x.
Proof.
  unfold inside, dilate. cbv zeta. rewrite pixelZ_gimap.
  destruct (pixelZ img y x); simpl; split; congruence.
Qed.

(** Erosion, as a set operation. *)
Lemma lit_erode img se y x :
  lit (erode img se) y x <->
  inside img y x /\
  forall dy dx, covers se dy dx ->
                inside img (y + dy) (x + dx) -> lit img (y + dy) (x + dx).
Proof.
  unfold lit at 1, inside at 1, erode. cbv zeta. rewrite pixelZ_gimap.
  destruct (pixelZ img y x) as [v0|] eqn:E0; simpl;
    [|split; [now intros (v & H & _)|intros [H _]; congruence]].
  assert (Hyx : 0 <= y /\ 0 <= x) by (apply (pixelZ_nonneg img); congruence).
  split.
  - intros (v & [= <-] & Hv). split; [discriminate|].
    intros dy dx Hc Hin. unfold inside in Hin.
    destruct (pixelZ img (y + dy) (x + dx)) as [u|] eqn:Eu; [|congruence].
    exists u. split; [exact Eu|].
    apply (proj1 (fold_min_pos _) Hv). apply in_neighbourhood.
    exists dy, dx. rewrite !Z2Nat.id by lia. auto.
  - intros [_ H]. eexists. split; [reflexivity|].
    apply fold_min_pos. intros u Hu.
    apply in_neighbourhood in Hu as (dy & dx & Hd & Hu).
    rewrite !Z2Nat.id in Hu by lia.
    destruct (H dy dx Hd) as (u' & Eu' & Hpos).
    + unfold inside. congruence.
    + congruence.
Qed.

(** Dilation, as a set operation. *)
Lemma lit_dilate img se y x :
  lit (dilate img se) y x <->
  inside img y x /\
  exists dy dx, covers se dy dx /\ lit img (y + dy) (x + dx).
Proof.
  unfold lit at 1, inside at 1, dilate. cbv zeta. rewrite pixelZ_gimap.
  destruct (pixelZ img y x) as [v0|] eqn:E0; simpl;
    [|split; [now intros (v & H & _)|intros [H _]; congruence]].
  assert (Hyx : 0 <= y /\ 0 <= x) by (apply (pixelZ_nonneg img); congruence).
  split.
  - intros (v & [= <-] & Hv). split; [discriminate|].
    apply fold_max_pos in Hv as (u & Hu & Hpos).
    apply in_neighbourhood in Hu as (dy & dx & Hd & Hu).
    rewrite !Z2Nat.id in Hu by lia.
    exists dy, dx. split; auto. now exists u.
  - intros [_ (dy & dx & Hd & u & Hu & Hpos)]. eexists. split; [reflexivity|].
    apply fold_max_pos. exists u. split; auto.
    apply in_neighbourhood. exists dy, dx. rewrite !Z2Nat.id by lia. auto.
Qed.

Lemma lit_to_u8 mask y x : lit (_to_u8 mask) y x <-> pixelZ mask y x = Some true.
Proof.
  unfold lit, _to_u8. rewrite pixelZ_gmap.
  destruct (pixelZ mask y x) as [[|]|]; simpl; split; try congruence.
  - intros _. exists 255. split; [reflexivity|lia].
  - intros (v & [= <-] & H). lia.
  - now intros (v & H & _).
Qed.

Lemma inside_to_u8 mask y x : inside (_to_u8 mask) y x <-> inside mask y x.
Proof.
  unfold inside, _to_u8. rewrite pixelZ_gmap.
  destruct (pixelZ mask y x); simpl; split; congruence.
Qed.

Lemma to_bool_lit img y x : pixelZ (_to_bool img) y x = Some true <-> lit img y x.
Proof.
  unfold lit, _to_bool. rewrite pixelZ_gmap.
  destruct (pixelZ img y x) as [v|]; simpl; split; try congruence.
  - intros [= H]. apply Z.ltb_lt in H. eauto.
  - intros (u & [= <-] & H). f_equal. now apply Z.ltb_lt.
  - now intros (u & H & _).
Qed.

Lemma inside_to_bool img y x : inside (_to_bool img) y x <-> inside img y x.
Proof.
  unfold inside, _to_bool. rewrite pixelZ_gmap.
  destruct (pixelZ img y x); simpl; split; congruence.
Qed.

(** The disk kernel contains its centre and is symmetric about it. *)
Lemma disk_kernel_centre r : 0 <= r -> covers (disk_kernel r) 0 0.
Proof. intros Hr. apply (proj1 (proj2 (disk_kernel_disk r Hr))). nia. Qed.

Lemma disk_kernel_opposite r dy dx :
  0 <= r -> covers (disk_kernel r) dy dx -> covers (disk_kernel r) (- dy) (- dx).
Proof.
  intros Hr H.
  apply (proj2 (proj2 (disk_kernel_disk r Hr))) in H as (_ & _ & _ & H & _).
  now apply (proj2 (proj2 (disk_kernel_disk r Hr))) in H as (_ & _ & _ & _ & H).
Qed.

(** ** Opening and closing as set operators *)

Section SetMorphology.
Variable cov : Z -> Z -> Prop.
Hypothesis cov_sym : forall dy dx, cov dy dx -> cov (- dy) (- dx).
Variable D : Z -> Z -> Prop.

Lemma ero_mono (X Y : Z -> Z -> Prop) :
  (forall y x, X y x -> Y y x) ->
  forall y x, ero cov D X y x -> ero cov D Y y x.
Proof. intros H y x [Hd HX]. split; auto. Qed.

Lemma dil_mono (X Y : Z -> Z -> Prop) :
  (forall y x, X y x -> Y y x) ->
  forall y x, dil cov D X y x -> dil cov D Y y x.
Proof. intros H y x [Hd (dy & dx & Hc & HX)]. split; eauto. Qed.

Lemma back_again y dy : y + dy + - dy = y.
Proof. lia. Qed.

Lemma opening_sub X y x : opening cov D X y x -> X y x.
Proof.
  intros [Hd (dy & dx & Hc & [_ H])].
  specialize (H (- dy) (- dx) (cov_sym _ _ Hc)).
  rewrite !back_again in H. auto.
Qed.

Lemma closing_sup X y x : D y x -> X y x -> closing cov D X y x.
Proof.
  intros Hd HX. split; auto. intros dy dx Hc Hd'. split; auto.
  exists (- dy), (- dx). split; auto. now rewrite !back_again.
Qed.

Lemma ero_domain X y x : ero cov D X y x -> D y x.
Proof. now intros [H _]. Qed.

Lemma dil_domain X y x : dil cov D X y x -> D y x.
Proof. now intros [H _]. Qed.

Lemma opening_mono X Y :
  (forall y x, X y x -> Y y x) ->
  forall y x, opening cov D X y x -> opening cov D Y y x.
Proof. intros H. apply dil_mono, ero_mono, H. Qed.

Lemma closing_mono X Y :
  (forall y x, X y x -> Y y x) ->
  forall y x, closing cov D X y x -> closing cov D Y y x.
Proof. intros H. apply ero_mono, dil_mono, H. Qed.

Lemma opening_idem X y x :
  opening cov D (opening cov D X) y x <-> opening cov D X y x.
Proof.
  split.
  - apply opening_sub.
  - apply dil_mono. intros y' x' H.
    apply closing_sup; auto. eapply ero_domain; eauto.
Qed.

Lemma closing_idem X y x :
  closing cov D (closing cov D X) y x <-> closing cov D X y x.
Proof.
  split.
  - apply ero_mono. intros y' x'. apply opening_sub.
  - intros H. apply closing_sup; auto. eapply ero_domain; eauto.
Qed.

(** The open-close filter is idempotent. *)
Lemma open_close_idem X y x :
  closing cov D (opening cov D (closing cov D (opening cov D X))) y x <->
  closing cov D (opening cov D X) y x.
Proof.
  split.
  - intros H. apply closing_idem. revert y x H.
    apply closing_mono. intros y x. apply opening_sub.
  - revert y x. apply closing_mono. intros y x H.
    apply opening_idem in H. revert y x H.
    apply opening_mono. intros y x H.
    apply closing_sup; auto. eapply dil_domain; eauto.
Qed.
End SetMorphology.

Lemma ero_iff cov D D' X X' :
  (forall y x, D y x <-> D' y x) -> (forall y x, X y x <-> X' y x) ->
  forall y x, ero cov D X y x <-> ero cov D' X' y x.
Proof.
  intros HD HX y x. unfold ero. rewrite HD. split; intros [H1 H2]; split; auto;
    intros dy dx Hc Hd; apply HX, H2; auto; now apply HD.
Qed.

Lemma dil_iff cov D D' X X' :
  (forall y x, D y x <-> D' y x) -> (forall y x, X y x <-> X' y x) ->
  forall y x, dil cov D X y x <-> dil cov D' X' y x.
Proof.
  intros HD HX y x. unfold dil. rewrite HD.
  split; intros [H1 (dy & dx & Hc & H2)]; split; auto;
    exists dy, dx; split; auto; now apply HX.
Qed.

(** The cleaned mask, as a set: the closing of the opening of the mask. *)
Lemma open_close_set mask r y x :
  pixelZ (open_close mask r) y x = Some true <->
  closing (covers (disk_kernel r)) (inside mask)
    (opening (covers (disk_kernel r)) (inside mask)
       (fun y x => pixelZ mask y x = Some true)) y x.
Proof.
  unfold open_close, morphology. cbv zeta.
  set (se := disk_kernel r).
  rewrite to_bool_lit, lit_erode. unfold closing, opening.
  set (m := _to_u8 mask).
  assert (Hin : forall y x, inside m y x <-> inside mask y x)
    by (intros; apply inside_to_u8).
  assert (H1 : forall y x, lit (erode m se) y x <->
                           ero (covers se) (inside mask)
                               (fun y x => pixelZ mask y x = Some true) y x).
  { intros y' x'. rewrite lit_erode.
    apply (ero_iff (covers se) (inside m) (inside mask) (lit m)); auto.
    intros; apply lit_to_u8. }
  assert (Hin1 : forall y x, inside (erode m se) y x <-> inside mask y x)
    by (intros; now rewrite inside_erode).
  assert (H2 : forall y x, lit (dilate (erode m se) se) y x <->
                           dil (covers se) (inside mask)
                             (ero (covers se) (inside mask)
                               (fun y x => pixelZ mask y x = Some true)) y x).
  { intros y' x'. rewrite lit_dilate.
    now apply (dil_iff (covers se) (inside (erode m se)) (inside mask)). }
  assert (Hin2 : forall y x, inside (dilate (erode m se) se) y x
                             <-> inside mask y x)
    by (intros; now rewrite inside_dilate).
  assert (H3 : forall y x, lit (dilate (dilate (erode m se) se) se) y x <->
                           dil (covers se) (inside mask)
                            (dil (covers se) (inside mask)
                             (ero (covers se) (inside mask)
                               (fun y x => pixelZ mask y x = Some true))) y x).
  { intros y' x'. rewrite lit_dilate.
    now apply (dil_iff (covers se) (inside (dilate (erode m se) se))
                       (inside mask)). }
  assert (Hin3 : forall y x,
             inside (dilate (dilate (erode m se) se) se) y x
             <-> inside mask y x)
    by (intros; now rewrite inside_dilate).
  apply (ero_iff (covers se) _ (inside mask) _ _ Hin3 H3).
Qed.

Lemma pixel_defined_shape {A} (g : grid A) i j :
  pixel g i j <> None <->
  exists n, nth_error (shape g) i = Some n /\ (j < n)%nat.
Proof.
  unfold pixel, shape. rewrite nth_error_map.
  destruct (nth_error g i) as [row|]; simpl.
  - rewrite nth_error_Some. split.
    + intros Hj. eauto.
    + now intros (n & [= <-] & Hn).
  - split; [congruence|]. now intros (n & Hn & _).
Qed.

Lemma inside_shape {A B} (g : grid A) (h : grid B) :
  shape g = shape h -> forall y x, inside g y x <-> inside h y x.
Proof.
  intros Hs y x. unfold inside, pixelZ.
  destruct ((y <? 0) || (x <? 0)); [tauto|].
  now rewrite !pixel_defined_shape, Hs.
Qed.

(** Boolean masks of one shape with the same true pixels are equal. *)
Lemma bool_grid_ext (M N : grid bool) :
  shape M = shape N ->
  (forall i j, pixel M i j = Some true <-> pixel N i j = Some true) ->
  M = N.
Proof.
  intros Hs H. apply grid_ext; auto. intros i j.
  pose proof (pixel_defined_shape M i j) as HM.
  pose proof (pixel_defined_shape N i j) as HN. rewrite Hs in HM.
  specialize (H i j).
  destruct (pixel M i j) as [[|]|], (pixel N i j) as [[|]|]; auto;
    try (now (destruct H as [H1 H2]; (discriminate (H1 eq_refl)
                                     || discriminate (H2 eq_refl))));
    exfalso;
    try (apply (proj2 HN); [apply HM; discriminate|reflexivity]);
    try (apply (proj2 HM); [apply HN; discriminate|reflexivity]).
Qed.

Lemma opened_set mask se y x :
  pixelZ (_to_bool (morphology (_to_u8 mask) MORPH_OPEN se)) y x = Some true
  <->
  opening (covers se) (inside mask)
          (fun y x => pixelZ mask y x = Some true) y x.
Proof.
  unfold morphology, opening. rewrite to_bool_lit, lit_dilate.
  apply (dil_iff (covers se) (inside (erode (_to_u8 mask) se)) (inside mask)).
  - intros. rewrite inside_erode. apply inside_to_u8.
  - intros. rewrite lit_erode.
    apply (ero_iff (covers se) (inside (_to_u8 mask)) (inside mask)).
    + intros; apply inside_to_u8.
    + intros; apply lit_to_u8.
Qed.

Lemma closed_set mask se y x :
  pixelZ (_to_bool (morphology (_to_u8 mask) MORPH_CLOSE se)) y x = Some true
  <->
  closing (covers se) (inside mask)
          (fun y x => pixelZ mask y x = Some true) y x.
Proof.
  unfold morphology, closing. rewrite to_bool_lit, lit_erode.
  apply (ero_iff (covers se) (inside (dilate (_to_u8 mask) se)) (inside mask)).
  - intros. rewrite inside_dilate. apply inside_to_u8.
  - intros. rewrite lit_dilate.
    apply (dil_iff (covers se) (inside (_to_u8 mask)) (inside mask)).
    + intros; apply inside_to_u8.
    + intros; apply lit_to_u8.
Qed.

Lemma true_inside (mask : grid bool) y x :
  pixelZ mask y x = Some true -> inside mask y x.
Proof. unfold inside. congruence. Qed.

Lemma open_close_idempotent mask r :
  0 <= r -> open_close (open_close mask r) r = open_close mask r.
Proof.
  intros Hr. apply bool_grid_ext.
  - now rewrite !shape_open_close.
  - intros i j. rewrite <- !pixelZ_nat.
    rewrite (open_close_set (open_close mask r)).
    set (cov := covers (disk_kernel r)).
    assert (Hsym : forall dy dx, cov dy dx -> cov (- dy) (- dx))
      by (intros; now apply disk_kernel_opposite).
    assert (HD : forall y x, inside (open_close mask r) y x
                             <-> inside mask y x)
      by (apply inside_shape, shape_open_close).
    rewrite (open_close_set mask r). fold cov.
    rewrite <- (open_close_idem cov Hsym (inside mask)
                  (fun y x => pixelZ mask y x = Some true)).
    apply ero_iff; auto. intros y x.
    apply dil_iff; auto. intros y' x'.
    apply dil_iff; auto. intros y'' x''.
    apply ero_iff; auto. intros y3 x3.
    apply open_close_set.
Qed.

(** X1: cleaning is idempotent: for a radius r >= 0 and a mask with at
    least one pixel the cleaning returns a mask, and cleaning that mask again
    with the same radius returns it unchanged. *)
Theorem X1_clean_idempotent :
  forall mask r,
    0 <= r ->
    has_pixel mask = true ->
    exists cleaned,
      smooth_open_close mask r = Returns cleaned /\
      smooth_open_close cleaned r = Returns cleaned.
Proof.
  intros mask r Hr HP. exists (open_close mask r).
  split; [now apply smooth_open_close_returns|].
  rewrite smooth_open_close_returns;
    [|exact Hr|now rewrite has_pixel_open_close].
  now rewrite open_close_idempotent.
Qed.

Lemma X1_clean_idempotent_witness :
  exists cleaned,
    smooth_open_close square_mask 4 = Returns cleaned /\
    smooth_open_close cleaned 4 = Returns cleaned.
Proof.
  apply (X1_clean_idempotent square_mask 4).
  - lia.
  - exact square_has_pixel.
Defined.

(** X2: the opening step only removes pixels and the closing step only
    adds pixels: for a radius r >= 0 and a mask with at least one pixel,
    opening(mask) is contained in the mask and in the cleaned mask, and both
    the mask and the cleaned mask are contained in closing(mask). *)
Theorem X2_open_clean_close_sandwich :
  forall mask r,
    0 <= r ->
    has_pixel mask = true ->
    exists se opened closed cleaned,
      _disk_kernel r = Returns se /\
      morphologyEx (_to_u8 mask) MORPH_OPEN se = Returns opened /\
      morphologyEx (_to_u8 mask) MORPH_CLOSE se = Returns closed /\
      smooth_open_close mask r = Returns cleaned /\
      subset (_to_bool opened) mask /\
      subset (_to_bool opened) cleaned /\
      subset cleaned (_to_bool closed) /\
      subset mask (_to_bool closed).
Proof.
  intros mask r Hr HP.
  set (se := disk_kernel r).
  exists se, (morphology (_to_u8 mask) MORPH_OPEN se),
         (morphology (_to_u8 mask) MORPH_CLOSE se), (open_close mask r).
  split; [now apply disk_kernel_returns|].
  split; [apply morphologyEx_returns; now rewrite has_pixel_to_u8|].
  split; [apply morphologyEx_returns; now rewrite has_pixel_to_u8|].
  split; [now apply smooth_open_close_returns|].
  set (cov := covers se).
  assert (Hsym : forall dy dx, cov dy dx -> cov (- dy) (- dx))
    by (intros; now apply disk_kernel_opposite).
  unfold subset. repeat split; intros i j; rewrite <- !pixelZ_nat.
  - rewrite opened_set. apply (opening_sub cov Hsym).
  - rewrite opened_set, open_close_set. fold se cov.
    intros H. apply (closing_sup cov Hsym); auto.
    eapply dil_domain; eauto.
  - rewrite closed_set, open_close_set. fold se cov.
    apply closing_mono. intros y x. apply (opening_sub cov Hsym).
  - rewrite closed_set. fold cov. intros H.
    apply (closing_sup cov Hsym); auto. now apply true_inside.
Qed.

Lemma stripes_has_pixel : has_pixel stripes_mask = true.
Proof. vm_compute. reflexivity. Qed.

Lemma X2_open_clean_close_sandwich_witness :
  exists se opened closed,
    _disk_kernel 1 = Returns se /\
    morphologyEx (_to_u8 stripes_mask) MORPH_OPEN se = Returns opened /\
    morphologyEx (_to_u8 stripes_mask) MORPH_CLOSE se = Returns closed /\
    subset (_to_bool opened) stripes_mask /\
    subset stripes_mask (_to_bool closed).
Proof.
  destruct (X2_open_clean_close_sandwich stripes_mask 1 ltac:(lia)
              stripes_has_pixel)
    as (se & opened & closed & cleaned & E1 & E2 & E3 & _ & H1 & _ & _ & H4).
  exists se, opened, closed.
  split; [exact E1|]. split; [exact E2|]. split; [exact E3|].
  split; [exact H1|exact H4].
Defined.

Lemma subsetb_sound M N :
  shape M = shape N -> subsetb M N = true -> subset M N.
Proof.
  unfold subsetb, subset. intros Hs H i j HM.
  pose proof (@all_true_pixel (gzip_with implb M N) i j) as Hp.
  rewrite pixel_gzip_with, HM in Hp.
  pose proof (pixel_defined_shape M i j) as EM.
  pose proof (pixel_defined_shape N i j) as EN. rewrite Hs in EM.
  destruct (pixel N i j) as [[|]|] eqn:HN; auto.
  - now specialize (Hp false H eq_refl).
  - exfalso. apply (proj2 EN); [|reflexivity]. apply EM. congruence.
Qed.

Lemma open_close_monotone M N r :
  shape M = shape N -> subset M N ->
  subset (open_close M r) (open_close N r).
Proof.
  intros Hs Hsub i j. rewrite <- !pixelZ_nat.
  rewrite !open_close_set.
  set (cov := covers (disk_kernel r)).
  assert (HD : forall y x, inside M y x <-> inside N y x)
    by (now apply inside_shape).
  assert (HX : forall y x, pixelZ M y x = Some true -> pixelZ N y x = Some true).
  { intros y x H. pose proof (true_inside M y x H) as Hin.
    apply pixelZ_nonneg in Hin as [Hy Hx]. revert H.
    rewrite <- (Z2Nat.id y Hy), <- (Z2Nat.id x Hx), !pixelZ_nat.
    apply Hsub. }
  intros H.
  apply (ero_iff cov (inside M) (inside N) _ _ HD
           (fun y x => dil_iff cov (inside M) (inside N) _ _ HD
              (fun y x => dil_iff cov (inside M) (inside N) _ _ HD
                 (fun y x => ero_iff cov (inside M) (inside N) _ _ HD
                    (fun y x => iff_refl _) y x) y x) y x)) in H.
  revert i j H. intros i j.
  apply closing_mono, opening_mono. exact HX.
Qed.

(** X3: cleaning is monotone: for a radius r >= 0, if a mask with at least
    one pixel is contained in another of the same shape, both are cleaned
    without error and the cleaned first mask is contained in the cleaned
    second one. *)
Theorem X3_clean_monotone :
  forall M N r,
    0 <= r ->
    has_pixel M = true ->
    shape M = shape N ->
    subset M N ->
    exists cM cN,
      smooth_open_close M r = Returns cM /\
      smooth_open_close N r = Returns cN /\
      subset cM cN.
Proof.
  intros M N r Hr HP Hs Hsub.
  exists (open_close M r), (open_close N r).
  split; [now apply smooth_open_close_returns|].
  split.
  - apply smooth_open_close_returns; [exact Hr|].
    now rewrite <- (has_pixel_shape M N Hs).
  - now apply open_close_monotone.
Qed.

Lemma X3_clean_monotone_witness :
  exists cM cN,
    smooth_open_close (rect_mask 7 7 0 6 2 2) 1 = Returns cM /\
    smooth_open_close stripes_mask 1 = Returns cN /\
    subset cM cN.
Proof.
  apply (X3_clean_monotone (rect_mask 7 7 0 6 2 2) stripes_mask 1).
  - lia.
  - vm_compute. reflexivity.
  - vm_compute. reflexivity.
  - apply subsetb_sound; vm_compute; reflexivity.
Defined.

Lemma pixelZ_true_pixel (mask : grid bool) y x :
  pixelZ mask y x = Some true ->
  pixel mask (Z.to_nat y) (Z.to_nat x) = Some true.
Proof.
  intros H. pose proof (true_inside mask y x H) as Hin.
  apply pixelZ_nonneg in Hin as [Hy Hx]. revert H.
  rewrite <- (Z2Nat.id y Hy), <- (Z2Nat.id x Hx), !pixelZ_nat.
  now rewrite !Nat2Z.id.
Qed.

Lemma disk_kernel_sym r :
  0 <= r ->
  forall dy dx, covers (disk_kernel r) dy dx ->
                covers (disk_kernel r) (- dy) (- dx).
Proof. intros Hr dy dx. now apply disk_kernel_opposite. Qed.

(** With its centre in the element, the opening keeps a full domain. *)
Lemma opening_full cov (D X : Z -> Z -> Prop) :
  cov 0 0 -> (forall y x, D y x -> X y x) ->
  forall y x, D y x -> opening cov D X y x.
Proof.
  intros Hc HX y x Hd. split; auto.
  exists 0, 0. split; auto. rewrite !Z.add_0_r. split; auto.
Qed.

(** An empty mask stays empty and a full mask stays full under cleaning. *)
Lemma clean_empty mask r :
  0 <= r -> any mask = false -> any (open_close mask r) = false.
Proof.
  intros Hr Hany. apply no_interior_any. intros [i j] H.
  unfold interior in H. simpl in H. rewrite <- pixelZ_nat in H.
  apply open_close_set in H as [HD H].
  specialize (H 0 0 (disk_kernel_centre r Hr)).
  rewrite !Z.add_0_r in H.
  destruct (H HD) as [_ (dy & dx & Hc & H')].
  apply (opening_sub _ (disk_kernel_sym r Hr)) in H'.
  apply pixelZ_true_pixel in H'.
  now pose proof (@any_false_pixel mask _ _ _ Hany H').
Qed.

Lemma clean_full mask r :
  0 <= r -> all mask = true -> all (open_close mask r) = true.
Proof.
  intros Hr Hall. apply no_exterior_all. intros [i j] H.
  unfold exterior in H. simpl in H.
  assert (Hin : inside mask (Z.of_nat i) (Z.of_nat j)).
  { apply (inside_shape (open_close mask r) mask
             (shape_open_close mask r)).
    unfold inside. rewrite pixelZ_nat. congruence. }
  assert (HX : forall y x, inside mask y x -> pixelZ mask y x = Some true).
  { intros y x Hd. unfold inside in Hd.
    destruct (pixelZ mask y x) as [b|] eqn:E; [|congruence].
    destruct b; auto.
    pose proof (pixelZ_nonneg mask y x ltac:(congruence)) as [Hy Hx].
    revert E. rewrite <- (Z2Nat.id y Hy), <- (Z2Nat.id x Hx), pixelZ_nat.
    intros E. now pose proof (@all_true_pixel mask _ _ _ Hall E). }
  assert (Ht : pixelZ (open_close mask r) (Z.of_nat i) (Z.of_nat j)
               = Some true).
  { apply open_close_set.
    apply (closing_sup _ (disk_kernel_sym r Hr)); auto.
    apply opening_full; auto. now apply disk_kernel_centre. }
  rewrite pixelZ_nat in Ht. congruence.
Qed.

(** X4: a mask of any dimensions with at least one pixel and no true
    pixel, or only true pixels, is unchanged in kind by the cleaning, so
    [apply_feathering] returns the all-zero, respectively all-one, matte of
    its shape for every method and width. *)
Theorem X4_constant_masks_any_shape :
  forall mask m w,
    has_pixel mask = true ->
    (any mask = false ->
     apply_feathering mask (value m) w = Ok (full_like 0%R mask)) /\
    (all mask = true ->
     apply_feathering mask (value m) w = Ok (full_like 1%R mask)).
Proof.
  intros mask m w HP. split; intros H.
  - apply apply_feathering_empty; [exact HP|].
    apply clean_empty; [lia|exact H].
  - apply apply_feathering_full; [exact HP|].
    apply clean_full; [lia|exact H].
Qed.

Lemma X4_constant_masks_any_shape_witness :
  apply_feathering (const_mask 3 50 false) (value SIGMOID) 2
  = Ok (full_like 0%R (const_mask 3 50 false)) /\
  apply_feathering (const_mask 40 2 true) (value SIGMOID) 2
  = Ok (full_like 1%R (const_mask 40 2 true)).
Proof.
  split.
  - apply (proj1 (X4_constant_masks_any_shape
                    (const_mask 3 50 false) SIGMOID 2 eq_refl)).
    vm_compute. reflexivity.
  - apply (proj2 (X4_constant_masks_any_shape
                    (const_mask 40 2 true) SIGMOID 2 eq_refl)).
    vm_compute. reflexivity.
Defined.

Lemma disk_kernel_0 dy dx : covers (disk_kernel 0) dy dx <-> dy = 0 /\ dx = 0.
Proof.
  unfold covers. change (kernel_offsets (disk_kernel 0)) with [(0, 0)].
  simpl. split.
  - intros [[= <- <-]|[]]. auto.
  - intros [-> ->]. auto.
Qed.

Lemma open_close_0 mask : open_close mask 0 = mask.
Proof.
  apply bool_grid_ext.
  - apply shape_open_close.
  - intros i j. rewrite <- !pixelZ_nat, open_close_set.
    assert (Hsym := disk_kernel_sym 0 (Z.le_refl 0)).
    assert (Hc : covers (disk_kernel 0) 0 0) by (now apply disk_kernel_0).
    split.
    + intros [HD H]. specialize (H 0 0 Hc). rewrite !Z.add_0_r in H.
      destruct (H HD) as [_ (dy & dx & Hd & H')].
      apply disk_kernel_0 in Hd as [-> ->]. rewrite !Z.add_0_r in H'.
      now apply (opening_sub _ Hsym) in H'.
    + intros H. pose proof (true_inside mask _ _ H) as HD.
      apply (closing_sup _ Hsym); auto.
      split; auto. exists 0, 0. split; auto. rewrite !Z.add_0_r.
      split; auto. intros dy dx Hd _.
      apply disk_kernel_0 in Hd as [-> ->]. now rewrite !Z.add_0_r.
Qed.

(** X5: with radius 0 the structuring element is the single centre pixel
    and the cleaning step returns every mask with at least one pixel
    unchanged; on a grid without pixels it raises, as for every radius. *)
Theorem X5_clean_radius_0_identity :
  (exists se,
      _disk_kernel 0 = Returns se /\
      forall dy dx, covers se dy dx <-> dy = 0 /\ dx = 0) /\
  (forall mask,
      has_pixel mask = true -> smooth_open_close mask 0 = Returns mask) /\
  (forall mask r,
      has_pixel mask = false -> smooth_open_close mask r = Raises).
Proof.
  split; [exists (disk_kernel 0); split; [reflexivity|exact disk_kernel_0]|].
  split.
  - intros mask HP.
    rewrite smooth_open_close_returns; [|lia|exact HP].
    now rewrite open_close_0.
  - intros mask r HP. apply smooth_open_close_raises. now right.
Qed.

Lemma X5_clean_radius_0_identity_witness :
  smooth_open_close stripes_mask 0 = Returns stripes_mask /\
  smooth_open_close (@nil (list bool)) 0 = Raises.
Proof.
  split.
  - apply (proj1 (proj2 X5_clean_radius_0_identity) stripes_mask).
    exact stripes_has_pixel.
  - apply (proj2 (proj2 X5_clean_radius_0_identity) [] 0).
    reflexivity.
Defined.

(** * Further properties of the feathering *)

Open Scope R_scope.

Lemma value_neq_eqb method m :
  value m <> method -> String.eqb method (value m) = false.
Proof. intros H. apply String.eqb_neq. congruence. Qed.

(** X6: a method string that is not the value of one of the seven enum
    members makes [apply_feathering] raise ValueError on a mask with at least
    one pixel, with the message naming the method; the strings are compared
    exactly (case matters).  The method is looked at after the cleaning: on
    a grid without pixels the call raises [cv2.error] instead. *)
Theorem X6_unknown_method_raises :
  forall mask method w,
    (forall m, value m <> method) ->
    (has_pixel mask = true ->
     apply_feathering mask method w
     = ValueError ("Unknown feathering method: " ++ method)) /\
    (has_pixel mask = false ->
     apply_feathering mask method w = Cv2Error).
Proof.
  intros mask method w H. split; intros HP.
  - unfold apply_feathering.
    rewrite smooth_open_close_returns by (auto; lia).
    now rewrite !value_neq_eqb by apply H.
  - now apply apply_feathering_raises.
Qed.

Lemma X6_unknown_method_raises_witness :
  apply_feathering square_mask "LINEAR" 10
  = ValueError "Unknown feathering method: LINEAR" /\
  apply_feathering [] "LINEAR" 10 = Cv2Error.
Proof.
  assert (H : forall m, value m <> "LINEAR"%string)
    by (intros m; destruct m; discriminate).
  split.
  - apply (proj1 (X6_unknown_method_raises square_mask "LINEAR" 10 H)).
    exact square_has_pixel.
  - apply (proj2 (X6_unknown_method_raises [] "LINEAR" 10 H)).
    reflexivity.
Defined.

Lemma apply_feathering_band mask m g w alpha p q :
  profile m = Some g ->
  apply_feathering mask (value m) w = Ok alpha ->
  exterior (open_close mask 4) p ->
  nearest_interior (open_close mask 4) p q ->
  euclidean p q < w ->
  pixel alpha (fst p) (snd p) = Some (g (clip (euclidean p q / w) 0 1)).
Proof.
  intros Hg E Hp Hq Hb.
  pose proof (apply_feathering_has_pixel _ _ _ _ E) as HP.
  rewrite apply_feathering_value, Hg in E by exact HP.
  injection E as <-. now apply _feather_band.
Qed.

Lemma profile_decr m g t1 t2 :
  profile m = Some g -> 0 <= t1 -> t1 <= t2 -> t2 <= 1 -> g t2 <= g t1.
Proof.
  intros Hg H0 H12 H1.
  destruct m; simpl in Hg; inversion Hg; subst;
    auto using g_linear_decr, g_exp_decr, g_cos_decr, g_sigmoid_decr,
               g_ease_out_power_decr, g_ease_out_exp_decr.
Qed.

Lemma cube_lt_1 t : 0 <= t < 1 -> t ^ 3 < 1.
Proof.
  intros [H0 H1]. simpl. rewrite Rmult_1_r.
  assert (t * t <= t) by nra. nra.
Qed.

Lemma profile_pos m g t :
  profile m = Some g -> 0 <= t < 1 -> 0 < g t.
Proof.
  intros Hg Ht. destruct m; simpl in Hg; inversion Hg; subst.
  - unfold g_linear. lra.
  - unfold g_exp. apply exp_pos.
  - unfold g_cos. pose proof PI_RGT_0 as Hpi.
    assert (cos PI < cos (PI * t)) by (apply cos_decreasing_1; nra).
    rewrite cos_PI in H. lra.
  - apply g_sigmoid_open_range.
  - unfold g_ease_out_power. pose proof (cube_lt_1 t Ht). lra.
  - unfold g_ease_out_exp. apply exp_pos.
Qed.

Lemma nearest_exists M p :
  any M = true -> exists q, nearest_interior M p q.
Proof.
  intros Hany. destruct (any_true_exists M Hany) as (i & j & Hij).
  assert (Hne : zero_coords (gnot M) <> []).
  { intros E. assert (In (i, j) (zero_coords (gnot M)))
      by (now apply interior_zero_coords).
    rewrite E in H. contradiction. }
  destruct (@nearest_sq_in (zero_coords (gnot M)) p Hne) as (q & Hq & E).
  exists q. split.
  - now apply interior_zero_coords.
  - intros q' Hq'. apply euclidean_le_sq. rewrite <- E.
    apply nearest_sq_le. now apply interior_zero_coords.
Qed.

Lemma div_width_range d w : 0 <= d -> d < w -> 0 <= d / w < 1.
Proof.
  intros H0 Hd. split.
  - apply Rmult_le_pos; auto. left. apply Rinv_0_lt_compat. lra.
  - apply Rmult_lt_reg_r with w; [lra|].
    unfold Rdiv. rewrite Rmult_assoc, Rinv_l by lra. lra.
Qed.

Lemma div_width_le d1 d2 w : 0 < w -> d1 <= d2 -> d1 / w <= d2 / w.
Proof.
  intros Hw H. unfold Rdiv. apply Rmult_le_compat_r; auto.
  left. now apply Rinv_0_lt_compat.
Qed.

(** X7: the matte never gets more opaque farther from the mask: of two
    exterior pixels, the one at the larger distance from its nearest interior
    pixel has the smaller or equal alpha, for every method and width. *)
Theorem X7_alpha_non_increasing_in_distance :
  forall mask cleaned m w alpha p1 q1 p2 q2,
    smooth_open_close mask 4 = Returns cleaned ->
    apply_feathering mask (value m) w = Ok alpha ->
    exterior cleaned p1 ->
    exterior cleaned p2 ->
    nearest_interior cleaned p1 q1 ->
    nearest_interior cleaned p2 q2 ->
    euclidean p1 q1 <= euclidean p2 q2 ->
    exists a1 a2,
      pixel alpha (fst p1) (snd p1) = Some a1 /\
      pixel alpha (fst p2) (snd p2) = Some a2 /\
      a2 <= a1.
Proof.
  intros mask cleaned m w alpha p1 q1 p2 q2 Hc E Hp1 Hp2 Hq1 Hq2 Hd.
  apply smooth_open_close_inv in Hc as (_ & HP & ->).
  rewrite apply_feathering_value in E by exact HP. injection E as <-.
  destruct (profile m) as [g|] eqn:Hg.
  - pose proof (euclidean_nonneg p1 q1) as H1.
    destruct (Rlt_dec (euclidean p2 q2) w) as [Hb|Hb].
    + assert (Hb1 : euclidean p1 q1 < w) by lra.
      rewrite (@_feather_band _ g w p1 q1 Hp1 Hq1 Hb1).
      rewrite (@_feather_band _ g w p2 q2 Hp2 Hq2 Hb).
      do 2 eexists. split; [reflexivity|]. split; [reflexivity|].
      pose proof (div_width_range _ _ H1 Hb1).
      pose proof (div_width_range _ _ (euclidean_nonneg p2 q2) Hb).
      rewrite !clip_id by lra.
      apply (profile_decr m); auto; try lra.
      apply div_width_le; lra.
    + rewrite (@_feather_far _ g w p2 q2 Hp2 Hq2) by lra.
      destruct (Rlt_dec (euclidean p1 q1) w) as [Hb1|Hb1].
      * rewrite (@_feather_band _ g w p1 q1 Hp1 Hq1 Hb1).
        do 2 eexists. split; [reflexivity|]. split; [reflexivity|].
        apply (profile_range m); auto. apply clip_range.
      * rewrite (@_feather_far _ g w p1 q1 Hp1 Hq1) by lra.
        do 2 eexists. split; [reflexivity|]. split; [reflexivity|]. lra.
  - unfold exterior in Hp1, Hp2.
    rewrite !astype_float32_pixel, Hp1, Hp2. simpl.
    do 2 eexists. split; [reflexivity|]. split; [reflexivity|]. lra.
Qed.

Lemma X7_alpha_non_increasing_in_distance_witness :
  exists alpha a1 a2,
    apply_feathering square_mask (value COSINE) 10 = Ok alpha /\
    pixel alpha 12 5 = Some a1 /\ pixel alpha 12 0 = Some a2 /\ a2 <= a1.
Proof.
  destruct (apply_feathering square_mask (value COSINE) 10) as [alpha|msg|]
    eqn:E.
  - destruct (X7_alpha_non_increasing_in_distance
                square_mask (open_close square_mask 4) COSINE 10 alpha
                (12%nat, 5%nat) (12%nat, 10%nat)
                (12%nat, 0%nat) (12%nat, 10%nat) square_cleaned E
                square_exterior_12_5 square_exterior_12_0
                square_nearest_12_5 square_nearest_12_0)
      as (a1 & a2 & H1 & H2 & H).
    + rewrite euclidean_12_5, euclidean_12_0. lra.
    + exists alpha, a1, a2.
      exact (conj eq_refl (conj H1 (conj H2 H))).
  - rewrite apply_feathering_value in E by exact square_has_pixel.
    discriminate.
  - rewrite apply_feathering_value in E by exact square_has_pixel.
    discriminate.
Defined.

(** X8: for each of the six profiled methods the matte is positive
    exactly on the interior of the cleaned mask and on the pixels closer
    than the width to it: the support is the cleaned mask grown by less than
    the width. *)
Theorem X8_alpha_support :
  forall mask cleaned m g w alpha p a,
    profile m = Some g ->
    smooth_open_close mask 4 = Returns cleaned ->
    apply_feathering mask (value m) w = Ok alpha ->
    pixel alpha (fst p) (snd p) = Some a ->
    (0 < a <->
     interior cleaned p \/
     exists q, nearest_interior cleaned p q /\
               euclidean p q < w).
Proof.
  intros mask cleaned m g w alpha p a Hg Hc E Ha.
  apply smooth_open_close_inv in Hc as (_ & HP & ->).
  rewrite apply_feathering_value, Hg in E by exact HP. injection E as <-.
  set (M := open_close mask 4) in *.
  assert (Hdef : pixel M (fst p) (snd p) <> None).
  { apply pixel_defined_shape. rewrite <- (_feather_shape M g w).
    apply pixel_defined_shape. congruence. }
  destruct (pixel M (fst p) (snd p)) as [[|]|] eqn:Hp; [| |congruence].
  - rewrite (_feather_interior g w (p := p) Hp) in Ha. injection Ha as <-.
    split; [now left|lra].
  - split.
    + intros Hpos. right.
      destruct (any M) eqn:Hany.
      * destruct (nearest_exists M p Hany) as (q & Hq). exists q.
        split; auto.
        destruct (Rlt_dec (euclidean p q) w) as [Hb|Hb]; auto.
        rewrite (@_feather_far _ g w p q Hp Hq) in Ha by lra.
        injection Ha as <-. lra.
      * rewrite _feather_empty, pixel_full_like in Ha by auto.
        fold M in Ha. rewrite Hp in Ha. injection Ha as <-. lra.
    + intros [Hi|(q & Hq & Hb)].
      * unfold interior in Hi. congruence.
      * rewrite (@_feather_band _ g w p q Hp Hq Hb) in Ha. injection Ha as <-.
        pose proof (div_width_range _ _ (euclidean_nonneg p q) Hb).
        rewrite clip_id by lra. now apply (profile_pos m).
Qed.

Lemma X8_alpha_support_witness :
  exists alpha a,
    apply_feathering square_mask (value LINEAR) 10 = Ok alpha /\
    pixel alpha 12 5 = Some a /\
    0 < a.
Proof.
  destruct (apply_feathering square_mask (value LINEAR) 10) as [alpha|msg|]
    eqn:E.
  - assert (Hb : euclidean (12%nat, 5%nat) (12%nat, 10%nat) < 10)
      by (rewrite euclidean_12_5; lra).
    pose proof (apply_feathering_band square_mask LINEAR g_linear 10 alpha
                  (12%nat, 5%nat) (12%nat, 10%nat) eq_refl E
                  square_exterior_12_5 square_nearest_12_5 Hb) as Ha.
    exists alpha, (g_linear (clip (euclidean (12%nat, 5%nat) (12%nat, 10%nat)
                                    / 10) 0 1)).
    split; [reflexivity|]. split; [exact Ha|].
    apply (X8_alpha_support square_mask (open_close square_mask 4)
             LINEAR g_linear 10 alpha
             (12%nat, 5%nat) _ eq_refl square_cleaned E Ha).
    right. exists (12%nat, 10%nat). split.
    + exact square_nearest_12_5.
    + exact Hb.
  - rewrite apply_feathering_value in E by exact square_has_pixel.
    discriminate.
  - rewrite apply_feathering_value in E by exact square_has_pixel.
    discriminate.
Defined.

(** * The bounding box of a matte *)

Lemma Rltb_iff x y : Rltb x y = true <-> x < y.
Proof.
  unfold Rltb. destruct (Rlt_dec x y); split; auto; discriminate.
Qed.

Lemma hd_In {A} (d : A) l : l <> [] -> In (hd d l) l.
Proof. destruct l; [congruence|]. intros _. now left. Qed.

Lemma last_In {A} (d : A) l : l <> [] -> In (last l d) l.
Proof.
  induction l as [|x l IH]; [congruence|]. intros _.
  destruct l as [|y l]; [now left|].
  right. apply IH. discriminate.
Qed.

Lemma filter_seq_hd_le f a n i :
  In i (filter f (seq a n)) -> (hd 0 (filter f (seq a n)) <= i)%nat.
Proof.
  revert a. induction n as [|n IH]; intros a; simpl; [contradiction|].
  destruct (f a); simpl.
  - intros [<-|H]; auto.
    apply filter_In in H as [H _]. apply in_seq in H. lia.
  - apply IH.
Qed.

Lemma filter_seq_le_last f a n i :
  In i (filter f (seq a n)) -> (i <= last (filter f (seq a n)) 0)%nat.
Proof.
  revert a. induction n as [|n IH]; intros a; simpl; [contradiction|].
  destruct (f a); [|apply IH].
  destruct (filter f (seq (S a) n)) as [|x l] eqn:E.
  - intros [<-|[]]. simpl. lia.
  - intros [<-|H].
    + assert (Hl : In (last (x :: l) 0%nat) (filter f (seq (S a) n)))
        by (rewrite E; apply last_In; discriminate).
      apply filter_In in Hl as [Hl _]. apply in_seq in Hl.
      change (last (a :: x :: l) 0%nat) with (last (x :: l) 0%nat). lia.
    + change (last (a :: x :: l) 0%nat) with (last (x :: l) 0%nat).
      rewrite <- E. apply IH. now rewrite E.
Qed.

Lemma in_where_true v i : In i (where_true v) <-> nth_error v i = Some true.
Proof.
  unfold where_true. rewrite filter_In, in_seq. split.
  - intros [Hi H]. rewrite (nth_error_nth' v false) by lia. now f_equal.
  - intros H. assert (Hi : (i < length v)%nat)
      by (apply nth_error_Some; congruence).
    split; [lia|]. now rewrite (nth_error_nth v i false H).
Qed.

Lemma existsb_id_where v :
  existsb (fun b => b) v = true <-> where_true v <> [].
Proof.
  rewrite existsb_exists. split.
  - intros (b & Hb & ->). apply In_nth_error in Hb as (i & Hi).
    apply in_where_true in Hi. intros E. now rewrite E in Hi.
  - intros H. pose proof (hd_In 0%nat _ H) as Hin.
    apply in_where_true in Hin. apply nth_error_In in Hin. eauto.
Qed.

Lemma rows_any_spec mask i :
  nth_error (rows_any mask) i = Some true <-> exists j, positive mask i j.
Proof.
  unfold rows_any, positive, pixel. rewrite nth_error_map.
  destruct (nth_error mask i) as [row|]; simpl.
  - split.
    + intros [= H]. apply existsb_exists in H as (v & Hv & Hp).
      apply In_nth_error in Hv as (j & Hj). apply Rltb_iff in Hp. eauto.
    + intros (j & v & Hj & Hp). f_equal. apply existsb_exists.
      exists v. split; [eapply nth_error_In; eauto|now apply Rltb_iff].
  - split; [discriminate|]. now intros (j & v & H & _).
Qed.

Lemma cols_any_spec mask j :
  nth_error (cols_any mask) j = Some true <->
  (j < ncols mask)%nat /\ exists i, positive mask i j.
Proof.
  unfold cols_any, positive, pixel. rewrite nth_error_map. split.
  - intros H.
    destruct (nth_error (seq 0 (ncols mask)) j) as [j'|] eqn:E; [|discriminate].
    assert (Hj : (j < ncols mask)%nat).
    { rewrite <- (length_seq (ncols mask) 0). apply nth_error_Some. congruence. }
    rewrite nth_error_seq_0 in E by auto. injection E as <-.
    simpl in H. injection H as H. split; auto.
    apply existsb_exists in H as (row & Hrow & H).
    apply In_nth_error in Hrow as (i & Hi). exists i. rewrite Hi.
    destruct (nth_error row j) as [v|]; [|discriminate].
    exists v. split; auto. now apply Rltb_iff.
  - intros [Hj (i & v & Hv & Hp)].
    rewrite nth_error_seq_0 by auto. simpl. f_equal.
    destruct (nth_error mask i) as [row|] eqn:Hi; [|discriminate].
    apply existsb_exists. exists row. split; [eapply nth_error_In; eauto|].
    rewrite Hv. now apply Rltb_iff.
Qed.

Lemma rectangular_pixel {A} (g : grid A) H W i j :
  rectangular g H W -> pixel g i j <> None -> (i < H)%nat /\ (j < W)%nat.
Proof.
  unfold rectangular. intros Hr Hp.
  apply pixel_defined_shape in Hp as (n & Hn & Hj). rewrite Hr in Hn.
  assert (Hi : (i < H)%nat).
  { rewrite <- (repeat_length W H). apply nth_error_Some. congruence. }
  apply nth_error_In, repeat_spec in Hn. subst. auto.
Qed.

Lemma rectangular_dims {A} (g : grid A) H W :
  rectangular g H W -> (0 < H)%nat -> nrows g = H /\ ncols g = W.
Proof.
  unfold rectangular, shape, nrows, ncols. intros Hr HH. split.
  - rewrite <- (length_map (@length A)), Hr. apply repeat_length.
  - destruct g as [|row g]; destruct H as [|H]; simpl in *;
      try discriminate; try lia. now injection Hr.
Qed.

Lemma positive_bounds mask H W i j :
  rectangular mask H W -> positive mask i j -> (i < H)%nat /\ (j < W)%nat.
Proof.
  intros Hr (v & Hv & _). apply (rectangular_pixel mask H W); auto. congruence.
Qed.

Lemma bbox_empty mask H W :
  rectangular mask H W -> (0 < H)%nat ->
  (forall i j, ~ positive mask i j) ->
  _get_mask_bbox mask = (0, 0, W, H)%nat.
Proof.
  intros Hr HH Hnone. unfold _get_mask_bbox. cbv zeta.
  destruct (rectangular_dims mask H W Hr HH) as [-> ->].
  destruct (existsb (fun b => b) (rows_any mask)) eqn:E; [|reflexivity].
  exfalso. apply existsb_id_where in E.
  pose proof (hd_In 0%nat _ E) as Hin.
  apply in_where_true, rows_any_spec in Hin as (j & Hj).
  exact (Hnone _ _ Hj).
Qed.

Lemma bbox_nonempty mask H W i0 j0 :
  rectangular mask H W -> positive mask i0 j0 ->
  exists x0 y0 x1 y1,
    _get_mask_bbox mask = (x0, y0, x1, y1) /\
    (x0 < x1 <= W)%nat /\ (y0 < y1 <= H)%nat /\
    (forall i j, positive mask i j ->
                 (y0 <= i < y1)%nat /\ (x0 <= j < x1)%nat) /\
    (exists j, positive mask y0 j) /\
    (exists j, positive mask (y1 - 1) j) /\
    (exists i, positive mask i x0) /\
    (exists i, positive mask i (x1 - 1)).
Proof.
  intros Hr Hpos.
  destruct (positive_bounds mask H W i0 j0 Hr Hpos) as [Hi0 Hj0].
  assert (HH : (0 < H)%nat) by lia.
  destruct (rectangular_dims mask H W Hr HH) as [_ Hnc].
  assert (Hrow : forall i, In i (where_true (rows_any mask)) <->
                           exists j, positive mask i j).
  { intros i. now rewrite in_where_true, rows_any_spec. }
  assert (Hcol : forall j, In j (where_true (cols_any mask)) <->
                           exists i, positive mask i j).
  { intros j. rewrite in_where_true, cols_any_spec, Hnc. split.
    - now intros [_ H'].
    - intros (i & Hp). split; eauto.
      now destruct (positive_bounds mask H W i j Hr Hp). }
  assert (Hys : where_true (rows_any mask) <> []).
  { intros E. assert (Hin : In i0 (where_true (rows_any mask)))
      by (apply Hrow; eauto). now rewrite E in Hin. }
  assert (Hxs : where_true (cols_any mask) <> []).
  { intros E. assert (Hin : In j0 (where_true (cols_any mask)))
      by (apply Hcol; eauto). now rewrite E in Hin. }
  unfold _get_mask_bbox. cbv zeta.
  rewrite (proj2 (existsb_id_where _) Hys), (proj2 (existsb_id_where _) Hxs).
  simpl negb. simpl orb. cbv iota beta.
  set (ys := where_true (rows_any mask)) in *.
  set (xs := where_true (cols_any mask)) in *.
  do 4 eexists. split; [reflexivity|].
  pose proof (hd_In 0%nat ys Hys) as Hy0.
  pose proof (last_In 0%nat ys Hys) as Hy1.
  pose proof (hd_In 0%nat xs Hxs) as Hx0.
  pose proof (last_In 0%nat xs Hxs) as Hx1.
  assert (Hyle : (hd 0 ys <= last ys 0)%nat)
    by (exact (filter_seq_hd_le _ _ _ _ Hy1)).
  assert (Hxle : (hd 0 xs <= last xs 0)%nat)
    by (exact (filter_seq_hd_le _ _ _ _ Hx1)).
  destruct (proj1 (Hrow _) Hy1) as (jl & Hjl).
  destruct (proj1 (Hcol _) Hx1) as (il & Hil).
  destruct (positive_bounds mask H W _ _ Hr Hjl) as [Hb1 _].
  destruct (positive_bounds mask H W _ _ Hr Hil) as [_ Hb2].
  split; [lia|]. split; [lia|]. split.
  - intros i j Hp.
    assert (Hi : In i ys) by (apply Hrow; eauto).
    assert (Hj : In j xs) by (apply Hcol; eauto).
    assert ((hd 0 ys <= i)%nat) by (exact (filter_seq_hd_le _ _ _ _ Hi)).
    assert ((i <= last ys 0)%nat) by (exact (filter_seq_le_last _ _ _ _ Hi)).
    assert ((hd 0 xs <= j)%nat) by (exact (filter_seq_hd_le _ _ _ _ Hj)).
    assert ((j <= last xs 0)%nat) by (exact (filter_seq_le_last _ _ _ _ Hj)).
    lia.
  - replace (last ys 0 + 1 - 1)%nat with (last ys 0%nat) by lia.
    replace (last xs 0 + 1 - 1)%nat with (last xs 0%nat) by lia.
    split; [now apply Hrow|]. split; [now apply Hrow|].
    split; now apply Hcol.
Qed.

(** X10: for a mask without positive pixel [_get_mask_bbox] returns the
    full image bounds (0, 0, width, height). *)
Theorem X10_bbox_of_blank_mask :
  forall mask H W,
    rectangular mask H W -> (0 < H)%nat ->
    (forall i j, ~ positive mask i j) ->
    _get_mask_bbox mask = (0, 0, W, H)%nat.
Proof. exact bbox_empty. Qed.

Lemma X10_bbox_of_blank_mask_witness :
  _get_mask_bbox [[0; 0; 0]; [0; 0; 0]] = (0, 0, 3, 2)%nat.
Proof.
  apply (X10_bbox_of_blank_mask [[0; 0; 0]; [0; 0; 0]] 2 3).
  - reflexivity.
  - lia.
  - intros i j (v & Hv & Hp).
    destruct i as [|[|i]]; destruct j as [|[|[|j]]];
      try (destruct i); try (destruct j); try discriminate;
      injection Hv as <-; lra.
Defined.

(** X11: for a mask with a positive pixel the box returned by
    [_get_mask_bbox] lies within the image, is not empty, contains every
    positive pixel, and is tight: its first and last row and column each hold
    a positive pixel. *)
Theorem X11_bbox_encloses_positive_pixels :
  forall mask H W i0 j0,
    rectangular mask H W -> positive mask i0 j0 ->
    exists x0 y0 x1 y1,
      _get_mask_bbox mask = (x0, y0, x1, y1) /\
      (x0 < x1 <= W)%nat /\ (y0 < y1 <= H)%nat /\
      (forall i j, positive mask i j ->
                   (y0 <= i < y1)%nat /\ (x0 <= j < x1)%nat) /\
      (exists j, positive mask y0 j) /\
      (exists j, positive mask (y1 - 1) j) /\
      (exists i, positive mask i x0) /\
      (exists i, positive mask i (x1 - 1)).
Proof. exact bbox_nonempty. Qed.

Lemma X11_bbox_encloses_positive_pixels_witness :
  exists x0 y0 x1 y1,
    _get_mask_bbox [[0; 0; 0]; [0; 0.5; 1]; [0; 0; 0]] = (x0, y0, x1, y1) /\
    (x0 < x1 <= 3)%nat /\ (y0 < y1 <= 3)%nat.
Proof.
  destruct (X11_bbox_encloses_positive_pixels
              [[0; 0; 0]; [0; 0.5; 1]; [0; 0; 0]] 3 3 1 1)
    as (x0 & y0 & x1 & y1 & E & Hx & Hy & _).
  - reflexivity.
  - exists 0.5. split; [reflexivity|lra].
  - exists x0, y0, x1, y1. auto.
Defined.

Lemma apply_feathering_shape mask m w alpha :
  apply_feathering mask (value m) w = Ok alpha -> shape alpha = shape mask.
Proof.
  intros E. pose proof (apply_feathering_has_pixel _ _ _ _ E) as HP.
  rewrite apply_feathering_value in E by exact HP. injection E as <-.
  destruct (profile m).
  - now rewrite _feather_shape, shape_open_close.
  - unfold astype_float32. now rewrite shape_gmap, shape_open_close.
Qed.

Lemma apply_feathering_range mask m w alpha i j v :
  apply_feathering mask (value m) w = Ok alpha ->
  pixel alpha i j = Some v -> 0 <= v <= 1.
Proof.
  intros E. pose proof (apply_feathering_has_pixel _ _ _ _ E) as HP.
  rewrite apply_feathering_value in E by exact HP. injection E as <-.
  destruct (profile m) as [g|] eqn:Hg.
  - intros Hv.
    apply _feather_values in Hv as [->|[->|(t & Ht & ->)]]; try lra.
    eapply profile_range; eauto.
  - rewrite astype_float32_pixel.
    destruct (pixel _ i j) as [[|]|]; simpl; intros [= <-]; lra.
Qed.

(** X12: the crop box computed for a matte returned by
    [apply_feathering] never cuts the cleaned mask: it contains every
    interior pixel and stays within the image; when the cleaning left no
    pixel, the box is the full image. *)
Theorem X12_crop_box_of_matte :
  forall mask cleaned m w alpha H W,
    rectangular mask H W -> (0 < H)%nat ->
    smooth_open_close mask 4 = Returns cleaned ->
    apply_feathering mask (value m) w = Ok alpha ->
    (any cleaned = false ->
     _get_mask_bbox alpha = (0, 0, W, H)%nat) /\
    (forall p,
        interior cleaned p ->
        exists x0 y0 x1 y1,
          _get_mask_bbox alpha = (x0, y0, x1, y1) /\
          (y0 <= fst p < y1)%nat /\ (x0 <= snd p < x1)%nat /\
          (x1 <= W)%nat /\ (y1 <= H)%nat).
Proof.
  intros mask cleaned m w alpha H W Hr HH Hc E.
  apply smooth_open_close_inv in Hc as (_ & HP & ->).
  assert (Hra : rectangular alpha H W).
  { unfold rectangular in *. now rewrite (apply_feathering_shape _ _ _ _ E). }
  split.
  - intros Hany. apply bbox_empty; auto.
    rewrite (apply_feathering_empty mask m w HP Hany) in E.
    injection E as <-.
    intros i j (v & Hv & Hp). rewrite pixel_full_like in Hv.
    destruct (pixel mask i j); simpl in Hv; [|discriminate].
    injection Hv as <-. lra.
  - intros p Hp.
    pose proof (apply_feathering_interior mask m w alpha p E Hp) as H1.
    assert (Hpos : positive alpha (fst p) (snd p))
      by (exists 1; split; [exact H1|lra]).
    destruct (bbox_nonempty alpha H W _ _ Hra Hpos)
      as (x0 & y0 & x1 & y1 & Eb & Hx & Hy & Hin & _).
    exists x0, y0, x1, y1. split; auto.
    destruct (Hin _ _ Hpos). lia.
Qed.

Lemma square_rectangular : rectangular square_mask 25 25.
Proof. vm_compute. reflexivity. Qed.

Lemma X12_crop_box_of_matte_witness :
  exists alpha x0 y0 x1 y1,
    apply_feathering square_mask (value EASE_OUT_POWER) 10 = Ok alpha /\
    _get_mask_bbox alpha = (x0, y0, x1, y1) /\
    (y0 <= 12 < y1)%nat /\ (x0 <= 10 < x1)%nat /\
    (x1 <= 25)%nat /\ (y1 <= 25)%nat.
Proof.
  destruct (apply_feathering square_mask (value EASE_OUT_POWER) 10)
    as [alpha|msg|] eqn:E.
  - destruct (proj2 (X12_crop_box_of_matte square_mask
                       (open_close square_mask 4) EASE_OUT_POWER 10
                       alpha 25 25 square_rectangular ltac:(lia)
                       square_cleaned E)
                    (12%nat, 10%nat) square_interior_12_10)
      as (x0 & y0 & x1 & y1 & H).
    exists alpha, x0, y0, x1, y1. exact (conj eq_refl H).
  - rewrite apply_feathering_value in E by exact square_has_pixel.
    discriminate.
  - rewrite apply_feathering_value in E by exact square_has_pixel.
    discriminate.
Defined.

Lemma astype_uint8_range x : 0 <= x <= 255 -> (0 <= astype_uint8 x <= 255)%Z.
Proof.
  intros Hx. unfold astype_uint8.
  destruct (base_Int_part x) as [H1 H2]. split.
  - assert (-1 < IZR (Int_part x)) by lra.
    apply lt_IZR in H. lia.
  - apply le_IZR. lra.
Qed.

Lemma astype_uint8_IZR z : astype_uint8 (IZR z) = z.
Proof. unfold astype_uint8. symmetry. apply Int_part_spec. lra. Qed.

(** X13: scaling a matte returned by [apply_feathering] to 8 bits, as
    [_create_masked_image] and [_create_mask_image] do, stays within 0..255
    (the uint8 conversion cannot wrap), gives 255 exactly on the interior of
    the cleaned mask and 0 exactly on exterior pixels at distance at least
    the width. *)
Theorem X13_alpha_channel_8bit :
  forall mask cleaned m w alpha,
    smooth_open_close mask 4 = Returns cleaned ->
    apply_feathering mask (value m) w = Ok alpha ->
    shape (scale_to_uint8 alpha) = shape mask /\
    (forall i j v, pixel (scale_to_uint8 alpha) i j = Some v ->
                   (0 <= v <= 255)%Z) /\
    (forall p, interior cleaned p ->
               pixel (scale_to_uint8 alpha) (fst p) (snd p) = Some 255%Z) /\
    (forall p q,
        exterior cleaned p ->
        nearest_interior cleaned p q ->
        w <= euclidean p q ->
        pixel (scale_to_uint8 alpha) (fst p) (snd p) = Some 0%Z).
Proof.
  intros mask cleaned m w alpha Hc E.
  apply smooth_open_close_inv in Hc as (_ & HP & ->).
  unfold scale_to_uint8. split.
  - rewrite shape_gmap. eapply apply_feathering_shape; eauto.
  - split; [|split].
    + intros i j v. rewrite pixel_gmap.
      destruct (pixel alpha i j) as [a|] eqn:Ha; [|discriminate].
      simpl. intros [= <-].
      pose proof (apply_feathering_range _ _ _ _ _ _ _ E Ha).
      apply astype_uint8_range. lra.
    + intros p Hp. rewrite pixel_gmap.
      rewrite (apply_feathering_interior _ _ _ _ _ E Hp). simpl.
      f_equal. replace (1 * 255) with (IZR 255) by lra.
      apply astype_uint8_IZR.
    + intros p q Hp Hq Hd. rewrite pixel_gmap.
      rewrite (apply_feathering_far _ _ _ _ _ _ E Hp Hq Hd). simpl.
      f_equal. replace (0 * 255) with (IZR 0) by lra.
      apply astype_uint8_IZR.
Qed.

Lemma X13_alpha_channel_8bit_witness :
  exists alpha,
    apply_feathering square_mask (value SIGMOID) 10 = Ok alpha /\
    pixel (scale_to_uint8 alpha) 12 10 = Some 255%Z /\
    pixel (scale_to_uint8 alpha) 12 0 = Some 0%Z.
Proof.
  destruct (apply_feathering square_mask (value SIGMOID) 10)
    as [alpha|msg|] eqn:E.
  - destruct (X13_alpha_channel_8bit square_mask (open_close square_mask 4)
                                     SIGMOID 10 alpha square_cleaned E)
      as (_ & _ & Hin & Hfar).
    exists alpha. split; [reflexivity|]. split.
    + exact (Hin (12%nat, 10%nat) square_interior_12_10).
    + apply (Hfar (12%nat, 0%nat) (12%nat, 10%nat)
                  square_exterior_12_0 square_nearest_12_0).
      rewrite euclidean_12_0. lra.
  - rewrite apply_feathering_value in E by exact square_has_pixel.
    discriminate.
  - rewrite apply_feathering_value in E by exact square_has_pixel.
    discriminate.
Defined.

(** X9: boundary values of the profiles.  The contract stated for
    [_feather], g(0) = 1 and g(1) = 0, is met by linear, cosine and
    ease_out_power; the two exponential profiles start at 1 and end at 0.01;
    the sigmoid is point-symmetric about mid-ramp, g(t) + g(1 - t) = 1, and
    reaches neither 1 at t = 0 nor 0 at t = 1. *)
Theorem X9_profile_endpoints :
  (g_linear 0 = 1 /\ g_linear 1 = 0) /\
  (g_cos 0 = 1 /\ g_cos 1 = 0) /\
  (g_ease_out_power 0 = 1 /\ g_ease_out_power 1 = 0) /\
  (g_exp 0 = 1 /\ g_exp 1 = 0.01) /\
  (g_ease_out_exp 0 = 1 /\ g_ease_out_exp 1 = 0.01) /\
  (forall t, g_sigmoid t + g_sigmoid (1 - t) = 1) /\
  g_sigmoid 0 < 1 /\ 0 < g_sigmoid 1.
Proof.
  split; [unfold g_linear; lra|].
  split.
  { unfold g_cos. rewrite Rmult_0_r, Rmult_1_r, cos_0, cos_PI. lra. }
  split; [unfold g_ease_out_power; lra|].
  split.
  { split; [|exact g_exp_1]. unfold g_exp. now rewrite Rmult_0_r, exp_0. }
  split.
  { unfold g_ease_out_exp. split.
    - replace (- k_decay * 0 ^ 3) with 0 by ring. apply exp_0.
    - replace (- k_decay * 1 ^ 3) with (- k_decay * 1) by ring.
      exact g_exp_1. }
  split.
  { intros t. unfold g_sigmoid, a_steepness.
    replace (12 * (1 - t - 0.5)) with (- (12 * (t - 0.5))) by lra.
    rewrite exp_Ropp. pose proof (exp_pos (12 * (t - 0.5))) as P.
    field. lra. }
  split; apply g_sigmoid_open_range.
Qed.

(** * Request validation *)

Lemma dict_get_set_same {V} k (v : V) d : dict_get k (dict_set k v d) = Some v.
Proof.
  induction d as [|[k' v'] d IH]; simpl.
  - now rewrite String.eqb_refl.
  - destruct (String.eqb k k') eqn:E; simpl; rewrite E; auto.
Qed.

Lemma dict_get_set_other {V} k k' (v : V) d :
  k <> k' -> dict_get k (dict_set k' v d) = dict_get k d.
Proof.
  intros Hk. induction d as [|[k0 v0] d IH]; simpl.
  - now rewrite (proj2 (String.eqb_neq k k') Hk).
  - destruct (String.eqb k' k0) eqn:E; simpl.
    + apply String.eqb_eq in E. subst k0.
      now rewrite (proj2 (String.eqb_neq k k') Hk).
    + destruct (String.eqb k k0); auto.
Qed.

Lemma validate_point_ok point point' :
  validate_point point = inr point' ->
  exists x y xi yi,
    point_xy point = Some (x, y) /\
    py_int x = inr xi /\ py_int y = inr yi /\
    point_xy point' = Some (JInt xi, JInt yi).
Proof.
  unfold validate_point, point_xy.
  destruct point as [| | | | | |d]; try discriminate.
  destruct (dict_get "x" d) as [x|]; [|discriminate].
  destruct (dict_get "y" d) as [y|]; [|discriminate].
  destruct (negb (is_numeric x) || negb (is_numeric y)); [discriminate|].
  destruct (py_int x) as [e|xi] eqn:Ex; [discriminate|].
  destruct (py_int y) as [e|yi] eqn:Ey; [discriminate|].
  intros [= <-]. exists x, y, xi, yi.
  split; [reflexivity|]. split; [exact Ex|]. split; [exact Ey|].
  rewrite (dict_get_set_other "x" "y") by discriminate.
  now rewrite !dict_get_set_same.
Qed.

Lemma py_int_error v e :
  is_numeric v = true -> py_int v = inl e ->
  (exists msg, e = ValueErr msg) \/
  (exists msg, e = OverflowError msg) /\ is_infinite v = true.
Proof.
  destruct v as [| | |[q| |n]| | |]; simpl; try discriminate;
    intros _ [= <-]; eauto.
Qed.

Lemma validate_point_error point e :
  validate_point point = inl e ->
  (exists msg, e = ValueErr msg) \/
  (exists msg, e = OverflowError msg) /\
  exists x y, point_xy point = Some (x, y) /\
              (is_infinite x = true \/ is_infinite y = true).
Proof.
  unfold validate_point, point_xy.
  destruct point as [| | | | | |d]; try (intros [= <-]; eauto; fail).
  destruct (dict_get "x" d) as [x|]; [|intros [= <-]; eauto].
  destruct (dict_get "y" d) as [y|]; [|intros [= <-]; eauto].
  destruct (is_numeric x) eqn:Nx; simpl; [|intros [= <-]; eauto].
  destruct (is_numeric y) eqn:Ny; simpl; [|intros [= <-]; eauto].
  destruct (py_int x) as [ex|xi] eqn:Ex.
  - intros [= <-].
    destruct (py_int_error x ex Nx Ex) as [H|[H Hi]]; eauto 10.
  - destruct (py_int y) as [ey|yi] eqn:Ey; [|discriminate].
    intros [= <-].
    destruct (py_int_error y ey Ny Ey) as [H|[H Hi]]; eauto 10.
Qed.

Lemma validate_points_ok items pts :
  validate_points items = inr pts ->
  Forall2 (fun p p' =>
             exists x y xi yi,
               point_xy p = Some (x, y) /\
               py_int x = inr xi /\ py_int y = inr yi /\
               point_xy p' = Some (JInt xi, JInt yi)) items pts.
Proof.
  revert pts. induction items as [|p items IH]; simpl; intros pts.
  - intros [= <-]. constructor.
  - destruct (validate_point p) as [e|p'] eqn:Ep; [discriminate|].
    destruct (validate_points items) as [e|rest]; [discriminate|].
    intros [= <-]. constructor; auto. now apply validate_point_ok.
Qed.

Lemma validate_points_error items e :
  validate_points items = inl e ->
  (exists msg, e = ValueErr msg) \/
  (exists msg, e = OverflowError msg) /\
  exists p x y, In p items /\ point_xy p = Some (x, y) /\
                (is_infinite x = true \/ is_infinite y = true).
Proof.
  induction items as [|p items IH]; simpl; [discriminate|].
  destruct (validate_point p) as [e'|p'] eqn:Ep.
  - intros [= <-].
    destruct (validate_point_error p e' Ep) as [H|[H (x & y & Hxy & Hi)]];
      auto.
    right. split; auto. exists p, x, y. auto.
  - destruct (validate_points items) as [e'|rest]; [|discriminate].
    intros [= <-].
    destruct (IH eq_refl) as [H|[H (q & x & y & Hq & Hxy & Hi)]]; auto.
    right. split; auto. exists q, x, y. auto.
Qed.

Lemma validate_points_complete items :
  Forall (fun p => exists x y, point_xy p = Some (x, y) /\
                               finite_number x = true /\
                               finite_number y = true) items ->
  exists pts, validate_points items = inr pts.
Proof.
  induction 1 as [|p items (x & y & Hxy & Hx & Hy) _ (pts & IH)]; simpl.
  - eauto.
  - assert (E : exists p', validate_point p = inr p').
    { unfold validate_point, point_xy in *.
      destruct p as [| | | | | |d]; try discriminate.
      destruct (dict_get "x" d) as [x0|]; [|discriminate].
      destruct (dict_get "y" d) as [y0|]; [|discriminate].
      injection Hxy as -> ->.
      destruct x as [| | |[qx| |nx]| | |]; try discriminate;
        destruct y as [| | |[qy| |ny]| | |]; try discriminate;
        simpl; eauto. }
    destruct E as (p' & ->). rewrite IH. eauto.
Qed.

(** X14: whatever passes the validation of [run_inpainting] is well
    formed: the image id is in the store, there are as many points as
    labels, every point carries integer [x] and [y], and every label stands
    for 0 or 1. *)
Theorem X14_validated_request_well_formed :
  forall store oid mid points labels pts labs,
    run_inpainting_validate store oid mid points labels = Return (pts, labs) ->
    dict_mem oid store = true /\
    length pts = length labs /\
    Forall (fun p => exists x y, point_xy p = Some (JInt x, JInt y)) pts /\
    Forall (fun l => label_value l = Some 0%Z \/ label_value l = Some 1%Z) labs.
Proof.
  intros store oid mid points labels pts labs.
  unfold run_inpainting_validate.
  destruct (dict_mem oid store); simpl; [|discriminate].
  destruct (match mid with Some _ => _ | None => _ end); [discriminate|].
  destruct (parse_points_labels points labels) as [[]|[pts' labs']] eqn:E;
    try discriminate.
  intros [= -> ->]. split; [reflexivity|].
  unfold parse_points_labels in E.
  destruct points as [msg|[| | | | |items|]]; try discriminate.
  destruct (validate_points items) as [e|pts0] eqn:Ev; [discriminate|].
  destruct labels as [msg|[| | | | |labs0|]]; try discriminate.
  destruct (forallb valid_label labs0) eqn:El; simpl in E; [|discriminate].
  destruct (Nat.eqb_spec (length pts0) (length labs0)) as [Hlen|];
    simpl in E; [|discriminate].
  injection E as <- <-. split; [exact Hlen|]. split.
  - apply validate_points_ok in Ev. clear -Ev.
    induction Ev as [|p p' items pts0 (x & y & xi & yi & _ & _ & _ & H) _ IH];
      constructor; eauto.
  - apply Forall_forall. intros l Hl.
    rewrite forallb_forall in El. specialize (El l Hl).
    destruct l as [|b|k|f|s|l'|d]; simpl in El; try discriminate.
    + destruct b; simpl; auto.
    + simpl. destruct (Z.eqb_spec k 0) as [E0|]; [subst; auto|].
      destruct (Z.eqb_spec k 1) as [E1|]; [subst; auto|discriminate].
Qed.

Lemma X14_validated_request_well_formed_witness :
  exists pts,
    run_inpainting_validate demo_store "img-1" None
      (inr (JList demo_points)) (inr (JList demo_labels))
    = Return (pts, demo_labels) /\
    map point_xy pts = [Some (JInt 2, JInt 1)] /\
    length pts = length demo_labels /\
    Forall (fun p => exists x y, point_xy p = Some (JInt x, JInt y)) pts.
Proof.
  eexists. split; [reflexivity|]. split; [reflexivity|].
  destruct (X14_validated_request_well_formed
              demo_store "img-1" None
              (inr (JList demo_points)) (inr (JList demo_labels))
              _ _ eq_refl) as (_ & Hlen & Hpts & _).
  split; [exact Hlen|exact Hpts].
Defined.

(** X15: how the validation of [run_inpainting] can fail.  A rejected
    request gets status 404 (unknown image id) or status 400 with a detail
    that starts with "Invalid points/labels format: ".  An exception escapes
    the handler in two cases only: [json.loads] itself raised an exception
    that is neither JSONDecodeError nor ValueError (RecursionError on deeply
    nested text, for one), or [int()] raised OverflowError on an infinite
    coordinate of some point.  Such an exception of [json.loads] on the
    points does escape, once the image ids are accepted. *)
Theorem X15_validation_failures :
  (forall store oid mid points labels,
      match run_inpainting_validate store oid mid points labels with
      | Return _ => True
      | HTTPException code detail =>
          code = 404%Z \/
          (code = 400%Z /\
           exists msg,
             detail = ("Invalid points/labels format: " ++ msg)%string)
      | Uncaught e =>
          ((points = inl e \/ labels = inl e) /\
           (forall msg, e <> JSONDecodeError msg) /\
           (forall msg, e <> ValueErr msg))
          \/
          ((exists msg, e = OverflowError msg) /\
           exists items p x y,
             points = inr (JList items) /\ In p items /\
             point_xy p = Some (x, y) /\
             (is_infinite x = true \/ is_infinite y = true))
      end)
  /\
  (forall store oid e labels,
      dict_mem oid store = true ->
      (forall msg, e <> JSONDecodeError msg) ->
      (forall msg, e <> ValueErr msg) ->
      run_inpainting_validate store oid None (inl e) labels = Uncaught e).
Proof.
  split.
  - intros store oid mid points labels. unfold run_inpainting_validate.
    destruct (dict_mem oid store); simpl; [|now left].
    destruct (match mid with Some _ => _ | None => _ end); [now left|].
    destruct (parse_points_labels points labels) as [e|r] eqn:E; [|exact I].
    assert (H : (exists msg, e = ValueErr msg) \/
                (exists msg, e = JSONDecodeError msg) \/
                (points = inl e \/ labels = inl e) \/
                (exists msg, e = OverflowError msg) /\
                exists items p x y,
                  points = inr (JList items) /\ In p items /\
                  point_xy p = Some (x, y) /\
                  (is_infinite x = true \/ is_infinite y = true)).
    { unfold parse_points_labels in E.
      destruct points as [e0|[| | | | |items|]];
        try (injection E as <-; eauto; fail).
      destruct (validate_points items) as [e'|pts0] eqn:Ev.
      - injection E as <-.
        destruct (validate_points_error items e' Ev)
          as [H|[H (p & x & y & Hp & Hxy & Hi)]]; auto.
        right; right; right. split; auto. exists items, p, x, y. auto.
      - destruct labels as [e0|[| | | | |labs0|]];
          try (injection E as <-; eauto; fail).
        destruct (forallb valid_label labs0); simpl in E;
          [|injection E as <-; eauto].
        destruct (length pts0 =? length labs0)%nat; simpl in E;
          [discriminate|injection E as <-; eauto]. }
    destruct H as [(msg & ->)|[(msg & ->)|H]].
    + right. eauto.
    + right. eauto.
    + destruct e as [msg|msg|msg|msg|msg|msg|name msg|];
        try (right; eauto; fail);
        (destruct H as [H|[(msg' & [= ->]) H]];
         [left; split; [exact H|split; discriminate]
         |right; split; eauto]) ||
        (destruct H as [H|[(msg' & [=]) _]];
         left; split; [exact H|split; discriminate]).
  - intros store oid e labels Hmem H1 H2. unfold run_inpainting_validate.
    rewrite Hmem. simpl.
    destruct e; try reflexivity.
    + now destruct (H1 msg).
    + now destruct (H2 msg).
Qed.

Lemma X15_validation_failures_witness :
  run_inpainting_validate demo_store "img-1" None
    (inl (RecursionError "maximum recursion depth exceeded"))
    (inr (JList demo_labels))
  = Uncaught (RecursionError "maximum recursion depth exceeded").
Proof.
  apply (proj2 X15_validation_failures demo_store "img-1"%string
               (RecursionError "maximum recursion depth exceeded")
               (inr (JList demo_labels))).
  - reflexivity.
  - discriminate.
  - discriminate.
Defined.

(** X16: a well-formed request is accepted.  If the image id is in the
    store, no mask id is given, every point is a dict whose [x] and [y] are
    ints, bools or finite floats, every label is 0 or 1 (or a bool) and both
    lists have the same length, the validation returns the labels unchanged
    and the points with each coordinate replaced by [int()] of it. *)
Theorem X16_well_formed_request_accepted :
  forall store oid items labs,
    dict_mem oid store = true ->
    Forall (fun p => exists x y, point_xy p = Some (x, y) /\
                                 finite_number x = true /\
                                 finite_number y = true) items ->
    forallb valid_label labs = true ->
    length items = length labs ->
    exists pts,
      run_inpainting_validate store oid None
        (inr (JList items)) (inr (JList labs)) = Return (pts, labs) /\
      Forall2 (fun p p' =>
                 exists x y xi yi,
                   point_xy p = Some (x, y) /\
                   py_int x = inr xi /\ py_int y = inr yi /\
                   point_xy p' = Some (JInt xi, JInt yi)) items pts.
Proof.
  intros store oid items labs Hmem Hpts Hlabs Hlen.
  destruct (validate_points_complete items Hpts) as (pts & Ev).
  pose proof (validate_points_ok items pts Ev) as Hok.
  exists pts. split; auto.
  unfold run_inpainting_validate, parse_points_labels.
  rewrite Hmem, Ev, Hlabs. simpl.
  assert (Hl : length pts = length labs).
  { rewrite <- Hlen. symmetry. eapply Forall2_length; eauto. }
  now rewrite (proj2 (Nat.eqb_eq _ _) Hl).
Qed.

Lemma X16_well_formed_request_accepted_witness :
  exists pts,
    run_inpainting_validate demo_store "img-1" None
      (inr (JList demo_points)) (inr (JList demo_labels))
    = Return (pts, demo_labels) /\
    Forall2 (fun p p' =>
               exists x y xi yi,
                 point_xy p = Some (x, y) /\
                 py_int x = inr xi /\ py_int y = inr yi /\
                 point_xy p' = Some (JInt xi, JInt yi))
            demo_points pts.
Proof.
  apply (X16_well_formed_request_accepted
           demo_store "img-1" demo_points demo_labels).
  - reflexivity.
  - constructor; [|constructor].
    eexists _, _. split; [reflexivity|]. split; reflexivity.
  - reflexivity.
  - reflexivity.
Defined.

(** X17: an upload whose content type starts with "image/" stores the
    bytes under the new id, leaves the other images untouched, reports the
    byte count, and makes that id acceptable to [run_inpainting] as the
    original image: the request is never answered 404 "Original image not
    found", and with no mask id, an empty one or a stored one it is not
    answered 404 at all, while a non-empty mask id that is not stored is
    answered 404 "Mask image not found".  Any other content type is answered
    with status 400 and changes nothing. *)
Theorem X17_upload_image_store :
  forall store id ct filename ty contents,
    (String.prefix "image/" ct = true ->
     exists store',
       upload_image store id (Some ct) filename ty contents
       = (Return (id, ty, filename, length contents), store') /\
       dict_get id store' = Some contents /\
       (forall id', id' <> id -> dict_get id' store' = dict_get id' store) /\
       (forall mid points labels,
           run_inpainting_validate store' id mid points labels
           <> HTTPException 404 "Original image not found") /\
       (forall mid points labels detail,
           match mid with
           | None => True
           | Some m => m = ""%string \/ dict_mem m store' = true
           end ->
           run_inpainting_validate store' id mid points labels
           <> HTTPException 404 detail) /\
       (forall m points labels,
           m <> ""%string -> dict_mem m store' = false ->
           run_inpainting_validate store' id (Some m) points labels
           = HTTPException 404 "Mask image not found")) /\
    (String.prefix "image/" ct = false ->
     upload_image store id (Some ct) filename ty contents
     = (HTTPException 400 "File must be an image", store)).
Proof.
  intros store id ct filename ty contents. unfold upload_image.
  split; intros ->; simpl; [|reflexivity].
  eexists. split; [reflexivity|].
  split; [apply dict_get_set_same|].
  split; [intros id' H; now apply dict_get_set_other|].
  split; [|split].
  - intros mid points labels. unfold run_inpainting_validate, dict_mem.
    rewrite dict_get_set_same. simpl.
    destruct (match mid with Some _ => _ | None => _ end); [discriminate|].
    destruct (parse_points_labels points labels) as [[]|]; discriminate.
  - intros mid points labels detail Hmid.
    unfold run_inpainting_validate. unfold dict_mem at 1.
    rewrite dict_get_set_same. simpl.
    assert (E : match mid with
                | Some m => negb (String.eqb m "")
                            && negb (dict_mem m (dict_set id contents store))
                | None => false
                end = false).
    { destruct mid as [m|]; auto. destruct Hmid as [Hm|Hm].
      - now rewrite Hm.
      - rewrite Hm. apply andb_false_r. }
    rewrite E.
    destruct (parse_points_labels points labels) as [[]|]; discriminate.
  - intros m points labels Hm Hmem.
    unfold run_inpainting_validate. unfold dict_mem at 1.
    rewrite dict_get_set_same. simpl. rewrite Hmem.
    now rewrite (proj2 (String.eqb_neq m "") Hm).
Qed.

Lemma X17_upload_image_store_witness :
  exists store',
    upload_image demo_store "img-2" (Some "image/png"%string)
                 "test.png" "original" []
    = (Return ("img-2", "original", "test.png", 0%nat)%string, store') /\
    dict_get "img-2" store' = Some [] /\
    dict_get "img-1" store' = dict_get "img-1" demo_store /\
    run_inpainting_validate store' "img-2" (Some "img-1"%string)
      (inr (JList demo_points)) (inr (JList demo_labels))
    <> HTTPException 404 "Mask image not found" /\
    run_inpainting_validate store' "img-2" (Some "img-3"%string)
      (inr (JList demo_points)) (inr (JList demo_labels))
    = HTTPException 404 "Mask image not found".
Proof.
  destruct (proj1 (X17_upload_image_store demo_store "img-2" "image/png"
                     "test.png" "original" []) eq_refl)
    as (store' & E & Hget & Hother & _ & Hok & Hmask).
  exists store'. split; [exact E|]. split; [exact Hget|].
  assert (H1 : dict_get "img-1" store' = dict_get "img-1" demo_store)
    by (apply Hother; discriminate).
  assert (H3 : dict_get "img-3" store' = dict_get "img-3" demo_store)
    by (apply Hother; discriminate).
  split; [exact H1|]. split.
  - apply Hok. right. unfold dict_mem. now rewrite H1.
  - apply Hmask; [discriminate|]. unfold dict_mem. now rewrite H3.
Defined.

Lemma handle_job_status st r : st_job_status (handle st r) = st_job_status st.
Proof.
  destruct r; simpl; auto.
  destruct (dict_get job_id (st_job_connections st)); auto.
Qed.

(** X18: no handler ever writes [job_status]: after any sequence of
    uploads, runs, job lookups and web-socket registrations from the initial
    state, [get_job_status] answers 404 "Job not found" for every job id. *)
Theorem X18_job_status_never_found :
  forall requests job_id,
    get_job_status (fold_left handle requests initial_state) job_id
    = HTTPException 404 "Job not found".
Proof.
  intros requests job_id.
  assert (H : forall st,
             st_job_status (fold_left handle requests st) = st_job_status st).
  { induction requests as [|r requests IH]; intros st; simpl; auto.
    now rewrite IH, handle_job_status. }
  specialize (H initial_state). simpl in H.
  unfold get_job_status. now rewrite H.
Qed.

Lemma generate_masks_spec {S : Type} (raw : list (grid bool * S)) :
  Forall (fun r => has_pixel (fst r) = true) raw ->
  generate_masks raw
  = inr (map (fun r => (_feather (open_close (fst r) 4)
                                 g_ease_out_power 10, snd r)) raw).
Proof.
  induction 1 as [|[mask score] raw HP _ IH]; [reflexivity|].
  cbn [generate_masks map fst snd]. unfold FEATHER_METHOD, FEATHER_WIDTH.
  rewrite apply_feathering_value, IH by exact HP. reflexivity.
Qed.

Lemma generate_masks_raises {S : Type} (raw : list (grid bool * S)) :
  Exists (fun r => has_pixel (fst r) = false) raw ->
  generate_masks raw = inl cv2_error.
Proof.
  induction raw as [|[mask score] raw IH]; intros H.
  - inversion H.
  - cbn [generate_masks]. unfold FEATHER_METHOD, FEATHER_WIDTH.
    destruct (has_pixel mask) eqn:HP.
    + rewrite apply_feathering_value by exact HP.
      rewrite IH; [reflexivity|].
      inversion H as [? ? H0|? ? H0]; subst; auto.
      simpl in H0. congruence.
    + now rewrite apply_feathering_raises by exact HP.
Qed.

(** X19: when every raw mask has at least one pixel the mask generation
    service does not fail in the feathering step (the configured method is a
    valid one): it returns one matte per raw mask, in the same order and with
    the same scores, each with the shape of its raw mask and with all values
    in [0, 1].  A raw mask without pixels makes the whole call raise
    [cv2.error]. *)
Theorem X19_generate_masks_total :
  forall (S : Type) (raw : list (grid bool * S)),
    (Forall (fun r => has_pixel (fst r) = true) raw ->
     exists refined,
       generate_masks raw = inr refined /\
       map snd refined = map snd raw /\
       Forall2 (fun r o =>
                  shape (fst o) = shape (fst r) /\
                  forall i j v, pixel (fst o) i j = Some v -> 0 <= v <= 1)
               raw refined) /\
    (Exists (fun r => has_pixel (fst r) = false) raw ->
     generate_masks raw = inl cv2_error).
Proof.
  intros S raw. split; [|apply generate_masks_raises].
  intros HP. rewrite generate_masks_spec by exact HP.
  eexists. split; [reflexivity|].
  split.
  - rewrite map_map. simpl. reflexivity.
  - clear HP.
    induction raw as [|[mask score] raw IH]; simpl; constructor; auto.
    simpl. split.
    + now rewrite _feather_shape, shape_open_close.
    + intros i j v Hv.
      apply _feather_values in Hv as [->|[->|(t & Ht & ->)]]; try lra.
      now apply g_ease_out_power_range.
Qed.

Lemma X19_generate_masks_total_witness :
  (exists refined,
      generate_masks [(square_mask, 1%Z); (const_mask 10 10 true, 2%Z)]
      = inr refined /\
      map snd refined = [1%Z; 2%Z]) /\
  generate_masks [(square_mask, 1%Z); ([], 2%Z)] = inl cv2_error.
Proof.
  split.
  - destruct (proj1 (X19_generate_masks_total Z
                       [(square_mask, 1%Z); (const_mask 10 10 true, 2%Z)]))
      as (refined & E & Hs & _).
    + constructor; [exact square_has_pixel|].
      constructor; [reflexivity|constructor].
    + exists refined. split; [exact E|exact Hs].
  - apply (proj2 (X19_generate_masks_total Z
                    [(square_mask, 1%Z); ([], 2%Z)])).
    apply Exists_cons_tl. apply Exists_cons_hd. reflexivity.
Defined.

Lemma div_width_anti d w1 w2 :
  0 <= d -> 0 < w1 -> w1 <= w2 -> d / w2 <= d / w1.
Proof.
  intros Hd H1 H12. unfold Rdiv. apply Rmult_le_compat_l; auto.
  apply Rinv_le_contravar; auto.
Qed.

(** X20: widening the feather never makes a pixel more transparent: for
    one mask and one method, the matte computed with the larger width is,
    pixel by pixel, at least the matte computed with the smaller width. *)
Theorem X20_alpha_monotone_in_width :
  forall mask m w1 w2 alpha1 alpha2 i j v1 v2,
    w1 <= w2 ->
    apply_feathering mask (value m) w1 = Ok alpha1 ->
    apply_feathering mask (value m) w2 = Ok alpha2 ->
    pixel alpha1 i j = Some v1 ->
    pixel alpha2 i j = Some v2 ->
    v1 <= v2.
Proof.
  intros mask m w1 w2 alpha1 alpha2 i j v1 v2 Hw E1 E2 H1 H2.
  pose proof (apply_feathering_has_pixel _ _ _ _ E1) as HP.
  rewrite apply_feathering_value in E1, E2 by exact HP.
  injection E1 as <-. injection E2 as <-.
  destruct (profile m) as [g|] eqn:Hg; [|rewrite H1 in H2; injection H2; lra].
  set (M := open_close mask 4) in *.
  destruct (any M) eqn:Hany;
    [|rewrite _feather_empty in H1, H2 by auto;
      rewrite H1 in H2; injection H2; lra].
  destruct (all M) eqn:Hall;
    [rewrite _feather_full in H1, H2 by auto;
     rewrite H1 in H2; injection H2; lra|].
  rewrite _feather_pixel in H1, H2 by auto.
  destruct (pixel M i j) as [[|]|] eqn:Hp; simpl in H1, H2; try discriminate.
  - injection H1 as <-. injection H2 as <-. lra.
  - destruct (nearest_exists M (i, j) Hany) as (q & Hq).
    rewrite (nearest_sq_euclidean Hq) in H1, H2.
    unfold feather_value in H1, H2.
    pose proof (euclidean_nonneg (i, j) q) as H0.
    destruct (Rlt_dec (euclidean (i, j) q) w1) as [Hb1|Hb1].
    + rewrite (@Rltb_true _ _ Hb1) in H1.
      rewrite (@Rltb_true (euclidean (i, j) q) w2) in H2 by lra.
      injection H1 as <-. injection H2 as <-.
      pose proof (div_width_range _ _ H0 Hb1).
      assert (Hb2 : euclidean (i, j) q < w2) by lra.
      pose proof (div_width_range _ _ H0 Hb2).
      rewrite !clip_id by lra.
      apply (profile_decr m); auto; try lra.
      apply div_width_anti; lra.
    + rewrite (@Rltb_false (euclidean (i, j) q) w1) in H1 by lra. injection H1 as <-.
      destruct (Rlt_dec (euclidean (i, j) q) w2) as [Hb2|Hb2].
      * rewrite (@Rltb_true _ _ Hb2) in H2. injection H2 as <-.
        apply (profile_range m); auto. apply clip_range.
      * rewrite (@Rltb_false (euclidean (i, j) q) w2) in H2 by lra. injection H2 as <-. lra.
Qed.

Lemma X20_alpha_monotone_in_width_witness :
  exists alpha1 alpha2 v1 v2,
    apply_feathering square_mask (value LINEAR) 6 = Ok alpha1 /\
    apply_feathering square_mask (value LINEAR) 10 = Ok alpha2 /\
    pixel alpha1 12 5 = Some v1 /\ pixel alpha2 12 5 = Some v2 /\
    v1 <= v2.
Proof.
  destruct (apply_feathering square_mask (value LINEAR) 6) as [alpha1|msg|]
    eqn:E1;
    [|rewrite apply_feathering_value in E1 by exact square_has_pixel;
      discriminate
     |rewrite apply_feathering_value in E1 by exact square_has_pixel;
      discriminate].
  destruct (apply_feathering square_mask (value LINEAR) 10) as [alpha2|msg|]
    eqn:E2;
    [|rewrite apply_feathering_value in E2 by exact square_has_pixel;
      discriminate
     |rewrite apply_feathering_value in E2 by exact square_has_pixel;
      discriminate].
  assert (Hb1 : euclidean (12%nat, 5%nat) (12%nat, 10%nat) < 6)
    by (rewrite euclidean_12_5; lra).
  assert (Hb2 : euclidean (12%nat, 5%nat) (12%nat, 10%nat) < 10)
    by (rewrite euclidean_12_5; lra).
  pose proof (apply_feathering_band square_mask LINEAR g_linear 6 alpha1
                (12%nat, 5%nat) (12%nat, 10%nat) eq_refl E1
                square_exterior_12_5 square_nearest_12_5 Hb1) as H1.
  pose proof (apply_feathering_band square_mask LINEAR g_linear 10 alpha2
                (12%nat, 5%nat) (12%nat, 10%nat) eq_refl E2
                square_exterior_12_5 square_nearest_12_5 Hb2) as H2.
  exists alpha1, alpha2. do 2 eexists.
  split; [reflexivity|]. split; [reflexivity|].
  split; [exact H1|]. split; [exact H2|].
  apply (X20_alpha_monotone_in_width square_mask LINEAR 6 10 alpha1 alpha2
           12%nat 5%nat _ _ ltac:(lra) E1 E2 H1 H2).
Defined.
